(** * DarkDrop backend: job orchestration, progress parsing and retention sweep

    A shallow embedding of [backend/src/index.ts]: the in-memory job table
    [jobs], the yt-dlp event handlers registered by [POST /api/media/download],
    the progress query [GET /api/media/progress/:jobId] and the periodic
    cleanup callback, followed by the properties established about them.

    Conventions of the embedding.
    - JavaScript strings are [string]s (byte strings).  The only characters the
      code inspects are ASCII digits, [.] and [%]; in UTF-8 no byte of a
      multi-byte sequence coincides with an ASCII character, so matching on
      bytes finds the same occurrences as matching on code units.
    - JavaScript numbers are rationals ([Q], kept in lowest terms).  In the
      job table a percentage is kept as the decimal that [parse] reads; the
      binary64 number that [parseFloat] makes of it, with its rounding and
      its overflow to [Infinity], is [parse64].  Timestamps are integers
      ([Z]).
    - The object [jobs] is an association list in insertion order, which is
      the order in which [Object.keys] enumerates non-index string keys.
    - Every callback runs to completion before the next one starts (Node's
      event loop), so a handler is a function from the state before it to the
      state after it; where the intermediate writes matter they are exposed
      as an explicit list of field writes. *)

From Stdlib Require Import Bool Arith ZArith QArith Lia List Ascii String.
Import ListNotations.
Local Open Scope string_scope.

(** ** Strings *)

(** [\d] of a JavaScript regular expression: the ten ASCII digits. *)
Definition is_digit (c : ascii) : bool :=
  let n := nat_of_ascii c in (48 <=? n)%nat && (n <=? 57)%nat.

Fixpoint all_digits (s : string) : bool :=
  match s with
  | EmptyString => true
  | String c s' => is_digit c && all_digits s'
  end.

(** Longest prefix of digits, and what follows it. *)
Fixpoint span_digits (s : string) : string * string :=
  match s with
  | EmptyString => (EmptyString, EmptyString)
  | String c s' =>
      if is_digit c
      then let (d, r) := span_digits s' in (String c d, r)
      else (EmptyString, s)
  end.

(** [String.prototype.startsWith]. *)
Definition startsWith (s p : string) : bool := String.prefix p s.

(** Truthiness of a [string | null | undefined] value: the empty string, like
    [null] and [undefined], is falsy. *)
Definition truthy (o : option string) : bool :=
  match o with
  | Some s => negb (s =? "")
  | None => false
  end.

(** [v || d] on an optional string. *)
Definition or_else (o : option string) (d : string) : string :=
  match o with
  | Some s => if s =? "" then d else s
  | None => d
  end.

(** ** The progress pattern [/(\d+\.\d+)%/] *)

(** An attempt anchored at the head of [s].  [\d+] is greedy, and giving a
    digit back can never help, because the character that must follow ([.]
    after the first group, [%] after the second) is not a digit; so the
    backtracking matcher succeeds exactly when the two maximal runs do.  The
    result is the pair (integer digits, fraction digits) of capture group 1. *)
Definition match_here (s : string) : option (string * string) :=
  let (d1, r1) := span_digits s in
  match d1, r1 with
  | String _ _, String "." r2 =>
      let (d2, r3) := span_digits r2 in
      match d2, r3 with
      | String _ _, String "%" _ => Some (d1, d2)
      | _, _ => None
      end
  | _, _ => None
  end.

(** [String.prototype.match] without the [g] flag: the attempt is made at
    offset 0, 1, 2, ... and the first success wins. *)
Fixpoint regex_match (s : string) : option (string * string) :=
  match match_here s with
  | Some m => Some m
  | None =>
      match s with
      | EmptyString => None
      | String _ s' => regex_match s'
      end
  end.

(** The text of capture group 1. *)
Definition capture (m : string * string) : string :=
  fst m ++ "." ++ snd m.

(** ** [parseFloat] *)

Definition digit_val (c : ascii) : Z := Z.of_nat (nat_of_ascii c) - 48.

Fixpoint digits_val (acc : Z) (s : string) : Z :=
  match s with
  | EmptyString => acc
  | String c s' => digits_val (10 * acc + digit_val c) s'
  end.

(** The number written [d1.d2] in decimal. *)
Definition decimal (d1 d2 : string) : Q :=
  Qred (Qmake (digits_val 0 (d1 ++ d2))
              (Z.to_pos (10 ^ Z.of_nat (String.length d2))%Z)).

(** [parseFloat] on the unsigned literals without exponent, which is all
    that capture group 1 can hold: the longest prefix [digits] or
    [digits.digits] is read; [None] is [NaN]. *)
Definition parseFloat (s : string) : option Q :=
  let (d1, r1) := span_digits s in
  match r1 with
  | String "." r2 =>
      let (d2, _) := span_digits r2 in
      match d1, d2 with
      | EmptyString, EmptyString => None
      | _, _ => Some (decimal d1 d2)
      end
  | _ =>
      match d1 with
      | EmptyString => None
      | _ => Some (decimal d1 EmptyString)
      end
  end.

(** ProgressParser: the two lines
    [const match = line.match(/(\d+\.\d+)%/)] and [parseFloat(match[1])] of the
    stdout handler. *)
Definition parse (line : string) : option Q :=
  match regex_match line with
  | Some m => parseFloat (capture m)
  | None => None
  end.

(** ** Binary64 *)

(** A number as [parseFloat] returns it for an unsigned literal: finite, or
    [Infinity]. *)
Inductive number :=
| Finite (q : Q)
| Infinity.

(** [n / d] rounded to the nearest integer, a tie to the even one
    ([0 <= n], [0 < d]). *)
Definition round_half_even (n d : Z) : Z :=
  let m := (n / d)%Z in
  match (2 * (n mod d) ?= d)%Z with
  | Lt => m
  | Gt => (m + 1)%Z
  | Eq => if Z.even m then m else (m + 1)%Z
  end.

(** The largest [e] with [2 ^ e <= n / d] ([0 < n], [0 < d]). *)
Definition floor_log2 (n d : Z) : Z :=
  let e0 := (Z.log2 n - Z.log2 d)%Z in
  if (if 0 <=? e0 then d * 2 ^ e0 <=? n else d <=? n * 2 ^ (- e0))%Z
  then e0 else (e0 - 1)%Z.

(** The binary64 number nearest to [q >= 0] (IEEE 754 round to nearest, ties
    to even): 53 significant bits, the unit in the last place no smaller
    than [2 ^ -1074], and [Infinity] when the rounded value reaches
    [2 ^ 1024]. *)
Definition binary64 (q : Q) : number :=
  let n := Qnum q in
  let d := Zpos (Qden q) in
  if (n <=? 0)%Z then Finite 0
  else
    let p := Z.max (floor_log2 n d - 52) (-1074) in
    if (0 <=? p)%Z then
      let v := (round_half_even n (d * 2 ^ p) * 2 ^ p)%Z in
      if (2 ^ 1024 <=? v)%Z then Infinity else Finite (inject_Z v)
    else
      Finite (Qred (Qmake (round_half_even (n * 2 ^ (- p)) d)
                          (Z.to_pos (2 ^ (- p))))).

(** ProgressParser as the stdout handler computes it,
    [parseFloat(line.match(/(\d+\.\d+)%/)[1])]: the decimal that [parse]
    reads, as a binary64 number. *)
Definition parse64 (line : string) : option number :=
  match parse line with
  | Some q => Some (binary64 q)
  | None => None
  end.

(** ** Objects used as string-keyed tables *)

Section Table.
Context {V : Type}.

(** Own property lookup. *)
Fixpoint get (k : string) (t : list (string * V)) : option V :=
  match t with
  | [] => None
  | (k', v) :: t' => if k =? k' then Some v else get k t'
  end.

(** [t[k] = v]: an existing own property keeps its place, a new one is
    added last. *)
Fixpoint assign (k : string) (v : V) (t : list (string * V)) : list (string * V) :=
  match t with
  | [] => [(k, v)]
  | (k', v') :: t' => if k =? k' then (k, v) :: t' else (k', v') :: assign k v t'
  end.

(** [delete t[k]]. *)
Fixpoint delete (k : string) (t : list (string * V)) : list (string * V) :=
  match t with
  | [] => []
  | (k', v') :: t' => if k =? k' then delete k t' else (k', v') :: delete k t'
  end.

(** [Object.keys(t)]. *)
Definition keys (t : list (string * V)) : list string := map fst t.
End Table.

(** ** Data model *)

(** [Job.status]: the five literals of the union type. *)
Inductive Status := Pending | Downloading | Processing | Completed | Error.

Definition Status_eqb (a b : Status) : bool :=
  match a, b with
  | Pending, Pending | Downloading, Downloading | Processing, Processing
  | Completed, Completed | Error, Error => true
  | _, _ => false
  end.

(** [interface Job]. [file] is [string | null]; [error] is optional. *)
Record Job := mkJob {
  status : Status;
  progress : Q;
  file : option string;
  error : option string;
  createdAt : Z
}.

(** [interface Jobs] and [const jobs: Jobs = {}]. *)
Definition Jobs := list (string * Job).

(** Job cleanup after 1 hour: [60 * 60 * 1000]. *)
Definition JOB_CLEANUP_TIME : Z := 60 * 60 * 1000.

(** The period of the cleanup timer, [10 * 60 * 1000], and the delay of the
    timer armed after a clean exit. *)
Definition CLEANUP_PERIOD : Z := 10 * 60 * 1000.
Definition SETTLE_DELAY : Z := 1000.

(** *** Property lookup [jobs[k]]

    [jobs] is an object literal, so its prototype is [Object.prototype]: a key
    that is not an own property is looked up there.  All twelve inherited
    members are functions or objects, hence truthy, and none of them has a
    [status], [progress], [file], [error] or [createdAt] property. *)
Definition object_prototype_keys : list string :=
  [ "constructor"; "__proto__"; "hasOwnProperty"; "isPrototypeOf";
    "propertyIsEnumerable"; "toLocaleString"; "toString"; "valueOf";
    "__defineGetter__"; "__defineSetter__"; "__lookupGetter__";
    "__lookupSetter__" ].

Inductive slot :=
| Own (job : Job)   (* an own property: a job record *)
| Inherited         (* a member of [Object.prototype] *)
| Undefined.

Definition lookup (jobs : Jobs) (k : string) : slot :=
  match get k jobs with
  | Some job => Own job
  | None =>
      if existsb (String.eqb k) object_prototype_keys then Inherited
      else Undefined
  end.

(** *** Job identifiers

    [uuid()] of the [uuid] package returns the canonical 36-character text:
    lower-case hexadecimal digits with hyphens at offsets 8, 13, 18 and 23.
    The identifier closed over by the yt-dlp handlers is always such a
    value, whereas the identifier of a progress query is whatever the
    client put in the URL. *)
Definition is_hex (c : ascii) : bool :=
  let n := nat_of_ascii c in
  is_digit c || ((97 <=? n)%nat && (n <=? 102)%nat).

Fixpoint uuid_from (pos : nat) (s : string) : bool :=
  match s with
  | EmptyString => (pos =? 36)%nat
  | String c s' =>
      (if (pos =? 8)%nat || (pos =? 13)%nat || (pos =? 18)%nat || (pos =? 23)%nat
       then Ascii.eqb c "-" else is_hex c)
      && uuid_from (S pos) s'
  end.

Definition is_uuid (s : string) : bool := uuid_from 0 s.

Record uuid := mkUuid {
  uuid_text :> string;
  uuid_wf : is_uuid uuid_text = true
}.

(** ** The download directory *)

(** What [fs.unlinkSync] does to a directory entry: a regular file is
    removed; on anything else the call throws ([EISDIR]/[EPERM] for a
    directory, [EACCES] for a file the process may not remove, [EBUSY] on
    Windows for a file that is held open). *)
Inductive entry := Regular | Undeletable.

(** [DOWNLOAD_DIR]: its entries in listing order, and whether
    [fs.readdirSync] can read it.  A file name [f] stands for
    [path.join(DOWNLOAD_DIR, f)]. *)
Record Dir := mkDir {
  listable : bool;
  entries : list (string * entry)
}.

Definition existsSync (d : Dir) (f : string) : bool :=
  match get f (entries d) with
  | Some _ => true
  | None => false
  end.

(** [None] is a thrown exception. *)
Definition unlinkSync (d : Dir) (f : string) : option Dir :=
  match get f (entries d) with
  | Some Regular => Some (mkDir (listable d) (delete f (entries d)))
  | _ => None
  end.

Definition readdirSync (d : Dir) : option (list string) :=
  if listable d then Some (keys (entries d)) else None.

(** ** Field writes *)

(** The four assignments [jobs[jobId].<field> = <value>] that occur in the
    handlers. *)
Inductive write :=
| SetStatus (s : Status)
| SetProgress (p : Q)
| SetFile (f : option string)
| SetError (e : string).

Definition apply_write (job : Job) (w : write) : Job :=
  match w with
  | SetStatus s => mkJob s (progress job) (file job) (error job) (createdAt job)
  | SetProgress p => mkJob (status job) p (file job) (error job) (createdAt job)
  | SetFile f => mkJob (status job) (progress job) f (error job) (createdAt job)
  | SetError e => mkJob (status job) (progress job) (file job) (Some e) (createdAt job)
  end.

Definition run_writes (job : Job) (ws : list write) : Job :=
  fold_left apply_write ws job.

(** The record after each write of a handler, in program order. *)
Fixpoint intermediate (job : Job) (ws : list write) : list Job :=
  match ws with
  | [] => []
  | w :: ws' => apply_write job w :: intermediate (apply_write job w) ws'
  end.

(** [if (jobs[jobId]) { jobs[jobId].f1 = v1; ... }].  When [jobs[jobId]] is an
    inherited member the writes land on that built-in object and no job
    record changes. *)
Definition update (jobs : Jobs) (jobId : string) (ws : list write) : Jobs :=
  match lookup jobs jobId with
  | Own job => assign jobId (run_writes job ws) jobs
  | Inherited => jobs
  | Undefined => jobs
  end.

(** ** The handlers of [POST /api/media/download] *)

(** The record stored at submission: [jobs[jobId] = { status: "downloading",
    progress: 0, file: null, createdAt: Date.now() }]. *)
Definition new_job (now : Z) : Job := mkJob Downloading 0 None None now.

Definition create_job (jobs : Jobs) (jobId : uuid) (now : Z) : Jobs :=
  assign jobId (new_job now) jobs.

(** [ytdlp.stdout.on("data", ...)]. *)
Definition stdout_writes (line : string) : list write :=
  match parse line with
  | Some p => [SetProgress p]
  | None => []
  end.

Definition on_stdout (jobs : Jobs) (jobId : uuid) (line : string) : Jobs :=
  update jobs jobId (stdout_writes line).

(** [ytdlp.on("error", ...)]. *)
Definition error_writes : list write :=
  [SetStatus Error; SetError "Download process failed"].

Definition on_error (jobs : Jobs) (jobId : uuid) : Jobs :=
  update jobs jobId error_writes.

(** [ytdlp.on("close", ...)].  [code] is [number | null], and [code !== 0]
    fails only for the number 0.  The second component is the delay of the
    timer armed for [on_timeout], when one is armed. *)
Definition nonzero (code : option Z) : bool :=
  match code with
  | Some c => negb (c =? 0)%Z
  | None => true
  end.

Definition exit_writes : list write :=
  [SetStatus Error; SetError "Download failed"].

Definition on_close (jobs : Jobs) (jobId : uuid) (code : option Z)
  : Jobs * option Z :=
  match lookup jobs jobId with
  | Undefined => (jobs, None)
  | _ =>
      if nonzero code then (update jobs jobId exit_writes, None)
      else (jobs, Some SETTLE_DELAY)
  end.

(** The callback of that timer.  [listing] is the outcome of
    [fs.readdirSync(DOWNLOAD_DIR)], [None] when it throws into the [catch]
    block. *)
Definition find_file (files : list string) (jobId : string) : option string :=
  find (fun f => startsWith f jobId) files.

Definition timeout_writes (listing : option (list string)) (jobId : string)
  : list write :=
  match listing with
  | Some files =>
      let file := find_file files jobId in
      [ SetStatus Completed;
        SetProgress 100;
        SetFile (if truthy file then file else None) ]
      ++ (if negb (truthy file)
          then [SetStatus Error; SetError "File not found after download"]
          else [])
  | None =>
      [SetStatus Error; SetError "Failed to locate downloaded file"]
  end.

Definition on_timeout (jobs : Jobs) (d : Dir) (jobId : uuid) : Jobs :=
  update jobs jobId (timeout_writes (readdirSync d) jobId).

(** ** [GET /api/media/progress/:jobId] *)

Module Res.
(** Status code and JSON body; a field that is [undefined] is left out of
    the body by [res.json]. *)
Record t := mk {
  code : Z;
  success : bool;
  status : option Status;
  progress : option Q;
  file_url : option string;
  error : option string
}.
End Res.

(** The template literal [`http://localhost:3000/downloads/${job.file}`]. *)
Definition fileUrl (f : option string) : string :=
  "http://localhost:3000/downloads/" ++
  match f with Some name => name | None => "null" end.

Definition get_progress (jobs : Jobs) (jobId : string) : Res.t :=
  match lookup jobs jobId with
  | Undefined =>
      Res.mk 404 false None None None (Some "Job not found")
  | Own job =>
      match status job with
      | Completed =>
          Res.mk 200 true (Some Completed) (Some 100) (Some (fileUrl (file job))) None
      | Error =>
          Res.mk 200 false (Some Error) (Some (progress job)) None
                 (Some (or_else (error job) "Unknown error"))
      | s =>
          Res.mk 200 true (Some s) (Some (progress job)) None None
      end
  | Inherited =>
      Res.mk 200 true None None None None
  end.

(** ** The cleanup timer *)

(** The destructive operations of a sweep, in the order performed. *)
Inductive effect :=
| Unlink (f : string)
| DeleteRecord (jobId : string).

(** Everything the callbacks share: the job table, the download directory,
    and (for stating orderings only) the log of destructive operations. *)
Record World := mkWorld {
  jobs : Jobs;
  disk : Dir;
  log : list effect
}.

(** How a callback ends; a thrown exception leaves the mutations made so far
    in place. *)
Inductive completion :=
| Returned (w : World)
| Threw (w : World).

Definition world_of (c : completion) : World :=
  match c with Returned w => w | Threw w => w end.

(** [if (job.file) { if (fs.existsSync(filePath)) fs.unlinkSync(filePath); }] *)
Definition remove_file (w : World) (job : Job) : completion :=
  match file job with
  | Some f =>
      if negb (f =? "") && existsSync (disk w) f then
        match unlinkSync (disk w) f with
        | Some d' => Returned (mkWorld (jobs w) d' (log w ++ [Unlink f]))
        | None => Threw w
        end
      else Returned w
  | None => Returned w
  end.

(** The body of the [forEach] callback for one key.  For an inherited member
    [job.createdAt] is [undefined] and the comparison with [NaN] is false. *)
Definition cleanup_job (now : Z) (w : World) (jobId : string) : completion :=
  match lookup (jobs w) jobId with
  | Own job =>
      if (now - createdAt job >? JOB_CLEANUP_TIME)%Z then
        match remove_file w job with
        | Returned w' =>
            Returned (mkWorld (delete jobId (jobs w')) (disk w')
                              (log w' ++ [DeleteRecord jobId]))
        | Threw w' => Threw w'
        end
      else Returned w
  | Inherited => Returned w
  | Undefined => Returned w
  end.

(** [ks.forEach(...)]: an exception leaves the loop. *)
Fixpoint cleanup_keys (now : Z) (ks : list string) (w : World) : completion :=
  match ks with
  | [] => Returned w
  | k :: ks' =>
      match cleanup_job now w k with
      | Returned w' => cleanup_keys now ks' w'
      | Threw w' => Threw w'
      end
  end.

(** The [setInterval] callback; [now] is [Date.now()]. *)
Definition cleanup (now : Z) (w : World) : completion :=
  cleanup_keys now (keys (jobs w)) w.

(** ** The server as a transition system *)

(** One callback of the event loop.  [DiskChange] is yt-dlp, or anything
    else outside the server, changing the download directory. *)
Inductive event :=
| Submit (jobId : uuid) (now : Z)
| StdoutData (jobId : uuid) (line : string)
| ProcessError (jobId : uuid)
| Close (jobId : uuid) (code : option Z)
| Timeout (jobId : uuid)
| Query (jobId : string)
| Sweep (now : Z)
| DiskChange (d : Dir).

Definition with_jobs (w : World) (js : Jobs) : World :=
  mkWorld js (disk w) (log w).

Definition step (w : World) (e : event) : completion :=
  match e with
  | Submit jobId now => Returned (with_jobs w (create_job (jobs w) jobId now))
  | StdoutData jobId line => Returned (with_jobs w (on_stdout (jobs w) jobId line))
  | ProcessError jobId => Returned (with_jobs w (on_error (jobs w) jobId))
  | Close jobId code => Returned (with_jobs w (fst (on_close (jobs w) jobId code)))
  | Timeout jobId => Returned (with_jobs w (on_timeout (jobs w) (disk w) jobId))
  | Query _ => Returned w
  | Sweep now => cleanup now w
  | DiskChange d => Returned (mkWorld (jobs w) d (log w))
  end.

(** An exception that escapes a timer callback is uncaught and ends the
    process, so a run stops there. *)
Fixpoint run (w : World) (es : list event) : completion :=
  match es with
  | [] => Returned w
  | e :: es' =>
      match step w e with
      | Returned w' => run w' es'
      | Threw w' => Threw w'
      end
  end.

(** The server at start-up, over whatever the download directory holds. *)
Definition initial (d : Dir) : World := mkWorld [] d [].

(** ** Replies *)

(** What a callback sends to an HTTP client, if anything. *)
Inductive reply :=
| Accepted (job_id : string)   (* [res.json({ success: true, job_id: jobId })] *)
| Report (r : Res.t).

Definition respond (w : World) (e : event) : option reply :=
  match e with
  | Submit jobId _ => Some (Accepted jobId)
  | Query jobId => Some (Report (get_progress (jobs w) jobId))
  | _ => None
  end.

(** ** [String.prototype.includes] and [String.prototype.replace] *)

Fixpoint includes (s p : string) : bool :=
  String.prefix p s
  || match s with
     | EmptyString => false
     | String _ s' => includes s' p
     end.

Fixpoint drop (n : nat) (s : string) : string :=
  match n, s with
  | O, _ => s
  | S n', String _ s' => drop n' s'
  | S _, EmptyString => EmptyString
  end.

(** [s.replace(p, r)] for a string pattern: the first occurrence only.  [r]
    is taken literally (the replacement used in the source is empty). *)
Fixpoint replace (s p r : string) : string :=
  if String.prefix p s then r ++ drop (String.length p) s
  else match s with
       | EmptyString => EmptyString
       | String c s' => String c (replace s' p r)
       end.

(** ** [POST /api/media/download]: validation and arguments *)

Set Warnings "-register-all".

(** A value of the parsed JSON body; [JUndefined] stands for a member the
    body does not have. *)
Inductive jsval :=
| JUndefined
| JNull
| JBool (b : bool)
| JNum (q : Q)
| JStr (s : string)
| JArr (items : list jsval)
| JObj (members : list (string * jsval)).

(** Truthiness: [undefined], [null], [false], [0] and the empty string are
    falsy, every array and object is truthy. *)
Definition js_truthy (v : jsval) : bool :=
  match v with
  | JUndefined | JNull => false
  | JBool b => b
  | JNum q => negb (Qeq_bool q 0)
  | JStr s => negb (s =? "")
  | JArr _ | JObj _ => true
  end.

(** [v || d]. *)
Definition js_or (v d : jsval) : jsval := if js_truthy v then v else d.

(** [v === s] for a string literal [s]; also the test [Array.prototype.includes]
    makes on each member. *)
Definition is_str (v : jsval) (s : string) : bool :=
  match v with
  | JStr t => t =? s
  | _ => false
  end.

Module Body.
(** [req.body], an object, after
    [const { url, format_id, type, audio_format } = req.body]. *)
Record t := mk {
  url : jsval;
  format_id : jsval;
  type : jsval;
  audio_format : jsval
}.
End Body.

(** [/^\d+$/] *)
Definition is_numeric (s : string) : bool :=
  negb (s =? "") && all_digits s.

(** The selector handed to [-f] for a video download, when [format_id] is a
    string. *)
Definition formatString (format_id : string) : string :=
  if (format_id =? "best") || includes format_id "+" then format_id
  else if is_numeric format_id then format_id ++ "+bestaudio/best"
  else format_id ++ "+bestaudio/best".

(** The same for any truthy value.  [format_id.includes("+")] is the string
    method on a string and the array method on an array, which looks for a
    member equal to ["+"]; an array without one goes on to [format_id.match],
    which arrays do not have.  Numbers, [true] and objects of a JSON body have
    no callable [includes].  [None] is the [TypeError] thrown there. *)
Definition video_selector (format_id : jsval) : option jsval :=
  match format_id with
  | JStr s => Some (JStr (formatString s))
  | JArr items =>
      if existsb (fun v => is_str v "+") items then Some format_id else None
  | _ => None
  end.

(** The file name part of [outputTemplate]: [`${jobId}.%(ext)s`]. *)
Definition template (jobId : string) : string := jobId ++ ".%(ext)s".

(** [args], by the value of [type]; [None] when building them throws. *)
Definition download_args (b : Body.t) (outputTemplate : string)
  : option (list jsval) :=
  if is_str (Body.type b) "audio" then
    Some [ JStr "-f"; Body.format_id b;
           JStr "-x";
           JStr "--audio-format"; js_or (Body.audio_format b) (JStr "mp3");
           JStr "--audio-quality"; JStr "0";
           JStr "-o"; JStr outputTemplate;
           JStr "--newline";
           JStr "--no-warnings";
           Body.url b ]
  else
    match video_selector (Body.format_id b) with
    | Some selector =>
        Some [ JStr "-f"; selector;
               JStr "--merge-output-format"; JStr "mp4";
               JStr "-o"; JStr outputTemplate;
               JStr "--newline";
               JStr "--no-warnings";
               Body.url b ]
    | None => None
    end.

(** How the handler ends: a 400 with its message; the job id, together with
    the arguments [yt-dlp] was spawned with; or an exception that escapes
    the handler, which Express answers with a 500. *)
Inductive download_reply :=
| BadRequest (error : string)
| Started (job_id : string) (args : list jsval)
| Thrown.

Section Download.
(** [isValidUrl] rests on the platform's [URL] parser, which converts its
    argument to a string first; [outputPath name] is
    [path.join(DOWNLOAD_DIR, name)]; [spawn_throws args] says whether
    [spawn("yt-dlp", args)] throws instead of returning a process, as it
    does for an argument that holds a NUL character.  The three are taken as
    given. *)
Variable isValidUrl : jsval -> bool.
Variable outputPath : string -> string.
Variable spawn_throws : list jsval -> bool.

(** The handler up to [res.json]; [jobId] is the value of [uuid()] and [now]
    that of [Date.now()].  The record is stored before the arguments are
    built and the process is spawned, so it is there when either throws. *)
Definition post_download (jobs : Jobs) (jobId : uuid) (now : Z) (b : Body.t)
  : Jobs * download_reply :=
  if negb (js_truthy (Body.url b)) || negb (js_truthy (Body.format_id b)) then
    (jobs, BadRequest "Missing required fields")
  else if negb (isValidUrl (Body.url b)) then
    (jobs, BadRequest "Invalid URL format")
  else if js_truthy (Body.type b)
          && negb (existsb (is_str (Body.type b)) ["video"; "audio"]) then
    (jobs, BadRequest "Type must be 'video' or 'audio'")
  else
    let jobs' := create_job jobs jobId now in
    match download_args b (outputPath (template jobId)) with
    | Some args =>
        if spawn_throws args then (jobs', Thrown)
        else (jobs', Started jobId args)
    | None => (jobs', Thrown)
    end.
End Download.

(** ** [POST /api/media/info]: the formats offered *)

(** [interface Format]. *)
Record Format := mkFormat {
  format_id : string;
  quality : string;
  ext : string;
  filesize : Z;
  has_audio : bool;
  has_video : bool;
  resolution : option string
}.

(** A quality tier of the handler: the selector caps the height and merges
    the best audio. *)
Definition tier (height quality : string) : Format :=
  mkFormat ("bestvideo[height<=" ++ height ++ "]+bestaudio/best[height<=" ++ height ++ "]")
           quality "mp4" 0 true true (Some (height ++ "p")).

Definition videoFormats : list Format :=
  [ tier "2160" "4K (2160p)";
    tier "1440" "2K (1440p)";
    tier "1080" "1080p";
    tier "720" "720p";
    tier "480" "480p";
    tier "360" "360p";
    tier "240" "240p" ].

Definition audioFormats : list Format :=
  [ mkFormat "bestaudio" "Best Audio" "m4a" 0 true false (Some "audio") ].

(** An element of [json.formats], as far as the handler reads it: [height]
    is a number or missing, [vcodec] a string or missing. *)
Record Stream := mkStream {
  height : option Z;
  vcodec : option string
}.

(** [availableHeights.add(f.height)] on a [Set]: a value already present is
    not added again. *)
Definition set_add (h : Z) (hs : list Z) : list Z :=
  if existsb (Z.eqb h) hs then hs else hs ++ [h].

(** [if (f.height && f.vcodec !== 'none') availableHeights.add(f.height)] *)
Definition add_stream (hs : list Z) (f : Stream) : list Z :=
  match height f with
  | Some h =>
      if negb (h =? 0)%Z
         && negb (match vcodec f with Some v => v =? "none" | None => false end)
      then set_add h hs
      else hs
  | None => hs
  end.

Definition availableHeights (formats : list Stream) : list Z :=
  fold_left add_stream formats [].

(** [parseInt] on a string that starts with neither white space, nor a sign,
    nor [0x]: the leading decimal digits, [None] ([NaN]) when there are
    none. *)
Definition parseInt (s : string) : option Z :=
  match fst (span_digits s) with
  | EmptyString => None
  | d => Some (digits_val 0 d)
  end.

(** The predicate of [videoFormats.filter]; a comparison with [NaN] is
    false. *)
Definition available (hs : list Z) (format : Format) : bool :=
  match parseInt (or_else (resolution format) "0") with
  | Some height => existsb (fun h => (h >=? height)%Z) hs
  | None => false
  end.

(** The [formats] field of the answer. *)
Definition offered (formats : list Stream) : list Format :=
  let filteredVideoFormats := filter (available (availableHeights formats)) videoFormats in
  if (0 <? List.length filteredVideoFormats)%nat then filteredVideoFormats
  else videoFormats.

(** ** [POST /api/media/info]: the yt-dlp callbacks *)

(** [data], [errorData] and [responseSent] of one request. *)
Record InfoState := mkInfo {
  data : string;
  errorData : string;
  responseSent : bool
}.

Inductive info_event :=
| InfoStdout (chunk : string)
| InfoStderr (message : string)
| InfoError
| InfoClose (code : option Z).

Section Info.
(** [JSON.parse] and the reading of the parsed value are taken as given:
    [parse_info text] is [None] on every text for which the [try] block
    throws, and otherwise the fields passed through to the answer together
    with [json.formats || []]. *)
Variable Meta : Type.
Variable parse_info : string -> option (Meta * list Stream).

Inductive info_reply :=
| InfoFailed (error : string)                      (* status 500 *)
| InfoOk (meta : Meta) (formats audio_formats : list Format).

Definition info_step (st : InfoState) (e : info_event)
  : InfoState * option info_reply :=
  match e with
  | InfoStdout chunk =>
      (mkInfo (data st ++ chunk) (errorData st) (responseSent st), None)
  | InfoStderr message =>
      if negb (includes message "WARNING:")
      then (mkInfo (data st) (errorData st ++ message) (responseSent st), None)
      else (st, None)
  | InfoError =>
      if negb (responseSent st)
      then (mkInfo (data st) (errorData st) true,
            Some (InfoFailed "Failed to start media info extraction"))
      else (st, None)
  | InfoClose code =>
      if responseSent st then (st, None)
      else
        let st' := mkInfo (data st) (errorData st) true in
        if nonzero code then
          (st', Some (InfoFailed (or_else (Some (errorData st))
                                          "Failed to fetch media info")))
        else
          match parse_info (data st) with
          | Some (meta, formats) =>
              (st', Some (InfoOk meta (offered formats) audioFormats))
          | None => (st', Some (InfoFailed "Failed to parse media info"))
          end
  end.

(** The answers sent over a sequence of callbacks. *)
Fixpoint info_run (st : InfoState) (es : list info_event) : list info_reply :=
  match es with
  | [] => []
  | e :: es' =>
      let (st', r) := info_step st e in
      match r with
      | Some reply => reply :: info_run st' es'
      | None => info_run st' es'
      end
  end.
End Info.

Definition info_start : InfoState := mkInfo "" "" false.

(** ** [GET /api/health] *)

(** The [jobs] field of the answer: [Object.keys(jobs).length]. *)
Definition health (jobs : Jobs) : nat := List.length (keys jobs).

(** ** The client library *)

Definition API_BASE : string := "http://localhost:3000/api".

(** [getDownloadUrl]. *)
Definition getDownloadUrl (file_url : string) : string :=
  if file_url =? "" then ""
  else if startsWith file_url "http" then file_url
  else replace API_BASE "/api" "" ++ file_url.

(** What [getProgress(job_id)] returns ([inr]) or throws ([inl]) when the
    server answers its request with [r].  Axios rejects a status outside
    200..299, and the response interceptor turns the rejection into
    [Error(data.error || "Server error")]; otherwise a [file_url] that does
    not start with [http] is made absolute.  (A request that gets no answer
    at all is not covered.) *)
Definition getProgress (job_id : string) (r : Res.t) : string + Res.t :=
  if job_id =? "" then inl "Job ID is required"
  else if (200 <=? Res.code r)%Z && (Res.code r <? 300)%Z then
    inr (Res.mk (Res.code r) (Res.success r) (Res.status r) (Res.progress r)
           (match Res.file_url r with
            | Some u =>
                if negb (u =? "") && negb (startsWith u "http")
                then Some (replace API_BASE "/api" "" ++ u)
                else Some u
            | None => None
            end)
           (Res.error r))
  else inl (or_else (Res.error r) "Server error").

(** One firing of the interval of [pollProgress], given the answer of the
    server: the promise is resolved, rejected, or left pending. *)
Inductive tick :=
| Resolved (progress : Res.t)
| Rejected (message : string)
| Waiting (progress : Res.t).

Definition poll_tick (job_id : string) (r : Res.t) : tick :=
  match getProgress job_id r with
  | inr progress =>
      match Res.status progress with
      | Some Completed => Resolved progress
      | Some Error => Rejected (or_else (Res.error progress) "Download failed")
      | _ => Waiting progress
      end
  | inl message => Rejected message
  end.

(** ** The order of the callbacks *)

(** Where the yt-dlp process of a job stands.  [child_process] delivers
    [data] events only while the process runs, an [error] event only for a
    process that could not be started, then a [close] event, with a code
    other than 0 after such an [error], and nothing after [close]; the
    server arms its timer in the [close] handler only, and [uuid()] does
    not return an identifier twice. *)
Inductive phase :=
| Running       (* spawned, no [error] and no [close] yet *)
| Failed        (* [error] delivered, [close] still to come *)
| Armed         (* [close] with code 0 delivered, timer pending *)
| Ended.        (* nothing more to come *)

(** The server with the processes it has spawned; [alive] is cleared by an
    exception that escapes a callback. *)
Record System := mkSystem {
  world : World;
  procs : list (string * phase);
  alive : bool
}.

(** Whether the callback [e] can come next. *)
Definition enabled (s : System) (e : event) : bool :=
  alive s &&
  match e with
  | Submit u _ =>
      match get u (procs s) with None => true | Some _ => false end
  | StdoutData u _ =>
      match get u (procs s) with Some Running => true | _ => false end
  | ProcessError u =>
      match get u (procs s) with
      | Some Running | Some Failed => true
      | _ => false
      end
  | Close u code =>
      match get u (procs s) with
      | Some Running => true
      | Some Failed => nonzero code
      | _ => false
      end
  | Timeout u =>
      match get u (procs s) with Some Armed => true | _ => false end
  | Query _ | Sweep _ | DiskChange _ => true
  end.

(** The callback [e] runs: the world changes by [step], and the process of
    the job moves on; the timer is armed exactly when [on_close] says
    so. *)
Definition sys_step (s : System) (e : event) : System :=
  mkSystem
    (world_of (step (world s) e))
    (match e with
     | Submit u _ => assign u Running (procs s)
     | ProcessError u => assign u Failed (procs s)
     | Close u code =>
         assign u
           (match snd (on_close (jobs (world s)) u code) with
            | Some _ => Armed
            | None => Ended
            end)
           (procs s)
     | Timeout u => assign u Ended (procs s)
     | _ => procs s
     end)
    (match step (world s) e with
     | Returned _ => alive s
     | Threw _ => false
     end).

(** A sequence of callbacks in an order that can occur; [None] when it
    cannot. *)
Fixpoint sys_run (s : System) (es : list event) : option System :=
  match es with
  | [] => Some s
  | e :: es' => if enabled s e then sys_run (sys_step s e) es' else None
  end.

Definition start (d : Dir) : System := mkSystem (initial d) [] true.

(** [b] is [a], or a terminal status reached from downloading. *)
Definition forward (a b : Status) : Prop :=
  b = a \/ (a = Downloading /\ (b = Completed \/ b = Error)).

(** What the phase of a job's process says about the status of its
    record. *)
Definition in_step (s : System) : Prop :=
  forall k job,
    get k (jobs (world s)) = Some job ->
    match get k (procs s) with
    | Some Running => status job = Downloading
    | Some Armed => status job = Downloading
    | Some Failed => status job = Error
    | Some Ended => True
    | None => False
    end.

(** * Vocabulary of the statements *)

(** ** Occurrences of the progress pattern *)

(** A string that does not begin with a digit. *)
Definition stops (r : string) : Prop :=
  match r with
  | EmptyString => True
  | String c _ => is_digit c = false
  end.

(** The pattern occurs in [line] at offset [length pre], with the digit
    groups [d1] and [d2]. *)
Definition occurs (line pre d1 d2 post : string) : Prop :=
  line = pre ++ d1 ++ "." ++ d2 ++ "%" ++ post
  /\ d1 <> "" /\ all_digits d1 = true
  /\ d2 <> "" /\ all_digits d2 = true.

(** No occurrence in [line] starts before offset [length pre]. *)
Definition leftmost (line pre : string) : Prop :=
  forall pre' d1' d2' post',
    occurs line pre' d1' d2' post' ->
    (String.length pre <= String.length pre')%nat.

(** ** Callbacks as lists of writes *)

(** The job a callback belongs to and the writes it performs on it. *)
Definition target (e : event) : option uuid :=
  match e with
  | StdoutData u _ | ProcessError u | Close u _ | Timeout u => Some u
  | _ => None
  end.

Definition writes_of (w : World) (e : event) : list write :=
  match e with
  | StdoutData _ line => stdout_writes line
  | ProcessError _ => error_writes
  | Close _ code => if nonzero code then exit_writes else []
  | Timeout u => timeout_writes (readdirSync (disk w)) u
  | _ => []
  end.

(** A submission whose identifier is not in use, as [uuid()] provides. *)
Definition fresh (w : World) (e : event) : Prop :=
  match e with
  | Submit u _ => get u (jobs w) = None
  | _ => True
  end.

(** Position of a status in the chain pending, downloading, processing,
    then completed or error. *)
Definition rank (s : Status) : nat :=
  match s with
  | Pending => 0
  | Downloading => 1
  | Processing => 2
  | Completed => 3
  | Error => 3
  end.

(** ** Polling *)

(** The progress a client polling [jobId] is sent. *)
Definition poll (js : Jobs) (jobId : string) : option Q :=
  Res.progress (get_progress js jobId).

(** Stdout data chunks of any number of jobs, in arrival order, with a poll
    of [jobId] after each. *)
Fixpoint polls (js : Jobs) (jobId : uuid) (out : list (uuid * string))
  : list (option Q) :=
  match out with
  | [] => []
  | (u, chunk) :: out' =>
      let js' := on_stdout js u chunk in
      poll js' jobId :: polls js' jobId out'
  end.

(** What the chunks of [jobId] make the handler write, in arrival order:
    for each chunk in which the pattern matches, the value of its first
    match. *)
Fixpoint reports (jobId : uuid) (out : list (uuid * string)) : list Q :=
  match out with
  | [] => []
  | (u, chunk) :: out' =>
      match (if (u =? jobId)%string then parse chunk else None) with
      | Some p => p :: reports jobId out'
      | None => reports jobId out'
      end
  end.

(** After each chunk, the value most recently written for [jobId] ([cur]
    until there is one). *)
Fixpoint latest (cur : Q) (jobId : uuid) (out : list (uuid * string)) : list Q :=
  match out with
  | [] => []
  | (u, chunk) :: out' =>
      let cur' :=
        match (if (u =? jobId)%string then parse chunk else None) with
        | Some p => p
        | None => cur
        end in
      cur' :: latest cur' jobId out'
  end.

(** [from <= x1 <= x2 <= ...] *)
Fixpoint ascending (from : Q) (l : list Q) : Prop :=
  match l with
  | [] => True
  | x :: l' => from <= x /\ ascending x l'
  end.

(** ** Sweeps *)

(** [now - job.createdAt > JOB_CLEANUP_TIME]. *)
Definition expired (now : Z) (job : Job) : bool :=
  (now - createdAt job >? JOB_CLEANUP_TIME)%Z.

(** The file that the sweep would try to delete for [job]. *)
Definition backing_file (job : Job) : option string :=
  match file job with
  | Some f => if f =? "" then None else Some f
  | None => None
  end.

(** The sweep throws only where [fs.unlinkSync] does. *)
Definition unlink_throws (d : Dir) (job : Job) : Prop :=
  exists f, backing_file job = Some f /\ get f (entries d) = Some Undeletable.

(** [w'] is [w] with some records and some directory entries removed. *)
Definition shrinks (w w' : World) : Prop :=
  (forall k j, get k (jobs w') = Some j -> get k (jobs w) = Some j)
  /\ (forall f e, get f (entries (disk w')) = Some e ->
                  get f (entries (disk w)) = Some e)
  /\ listable (disk w') = listable (disk w)
  /\ exists new, log w' = (log w ++ new)%list.

(** What one iteration did. *)
Inductive iteration (now : Z) (k : string) (w w' : World) : Prop :=
| it_skip : w' = w -> iteration now k w w'
| it_record job :
    get k (jobs w) = Some job -> expired now job = true ->
    match backing_file job with
    | Some f => get f (entries (disk w)) = None
    | None => True
    end ->
    w' = mkWorld (delete k (jobs w)) (disk w) (log w ++ [DeleteRecord k]) ->
    iteration now k w w'
| it_file job f :
    get k (jobs w) = Some job -> expired now job = true ->
    backing_file job = Some f ->
    get f (entries (disk w)) = Some Regular ->
    w' = mkWorld (delete k (jobs w))
                 (mkDir (listable (disk w)) (delete f (entries (disk w))))
                 (log w ++ [Unlink f; DeleteRecord k]) ->
    iteration now k w w'.

(** The log of a sweep over the table [js]: each expired record removed,
    preceded by the removal of its file when there was one to remove. *)
Inductive paired (now : Z) (js : Jobs) : list effect -> Prop :=
| paired_nil : paired now js []
| paired_record k job l :
    get k js = Some job -> expired now job = true ->
    paired now js l -> paired now js (DeleteRecord k :: l)
| paired_file k job f l :
    get k js = Some job -> expired now job = true ->
    backing_file job = Some f ->
    paired now js l -> paired now js (Unlink f :: DeleteRecord k :: l).

(** A recorded file name starts with the identifier of its job, and that
    identifier is a UUID. *)
Definition owned (js : Jobs) : Prop :=
  forall k job f,
    get k js = Some job -> file job = Some f ->
    is_uuid k = true /\ startsWith f k = true.

(** The state after the callbacks [es], from start-up over directory [d]. *)
Definition reached (d : Dir) (es : list event) : World :=
  world_of (run (initial d) es).

(** ** Sample values *)

Definition job_a : uuid := mkUuid "3f2b8c1e-7a4d-4e9b-9c55-0d1e2f3a4b5c" eq_refl.
Definition job_b : uuid := mkUuid "a81bc81b-dead-4e5d-abff-90865d1e13b1" eq_refl.

Definition file_a : string := "3f2b8c1e-7a4d-4e9b-9c55-0d1e2f3a4b5c.mp4".
Definition file_b : string := "a81bc81b-dead-4e5d-abff-90865d1e13b1.mp3".

(** Two finished jobs, both older than an hour at time 4000000. *)
Definition old_jobs : Jobs :=
  [ (uuid_text job_a, mkJob Completed 100 (Some file_a) None 0);
    (uuid_text job_b, mkJob Completed 100 (Some file_b) None 1000) ].

(** ... the file of the first of which cannot be unlinked. *)
Definition stuck : World :=
  mkWorld old_jobs (mkDir true [(file_a, Undeletable); (file_b, Regular)]) [].

(** An old finished job and a young running one. *)
Definition mixed : World :=
  mkWorld [ (uuid_text job_a, mkJob Completed 100 (Some file_a) None 0);
            (uuid_text job_b, mkJob Downloading 12.3 None None 3999000) ]
          (mkDir true [(file_a, Regular); ("a81bc81b-dead-4e5d-abff-90865d1e13b1.part", Regular)])
          [].

(** A run that ends in [stuck]: both jobs are submitted, yt-dlp writes both
    files and exits with code 0 twice, and each timer finds its file. *)
Definition stuck_run : list event :=
  [ Submit job_a 0;
    Submit job_b 1000;
    DiskChange (mkDir true [(file_a, Undeletable); (file_b, Regular)]);
    Close job_a (Some 0%Z);
    Timeout job_a;
    Close job_b (Some 0%Z);
    Timeout job_b ].

(** A run: job a is submitted at time 0, yt-dlp writes its file and exits
    with code 0, the timer finds the file; job b is submitted shortly before
    time 4000000. *)
Definition sample_run : list event :=
  [ Submit job_a 0;
    DiskChange (mkDir true [(file_a, Regular)]);
    Close job_a (Some 0%Z);
    Timeout job_a;
    Submit job_b 3999000 ].

(** ** A request that passes validation *)

(** [url] and [format_id] are truthy, the URL is valid, and [type] is falsy,
    "video" or "audio". *)
Definition accepted (isValidUrl : jsval -> bool) (b : Body.t) : Prop :=
  js_truthy (Body.url b) = true
  /\ js_truthy (Body.format_id b) = true
  /\ isValidUrl (Body.url b) = true
  /\ (js_truthy (Body.type b) = false
      \/ Body.type b = JStr "video" \/ Body.type b = JStr "audio").

(** ** Further vocabulary *)

(** The four messages the yt-dlp callbacks store in [error]. *)
Definition failure_messages : list string :=
  [ "Download process failed";
    "Download failed";
    "File not found after download";
    "Failed to locate downloaded file" ].

(** The lists of writes a callback of job [u] can perform. *)
Inductive handler_writes (u : uuid) : list write -> Prop :=
| hw_none : handler_writes u []
| hw_progress line p : parse line = Some p -> handler_writes u [SetProgress p]
| hw_error : handler_writes u error_writes
| hw_exit : handler_writes u exit_writes
| hw_found f :
    startsWith f u = true -> f <> "" ->
    handler_writes u [SetStatus Completed; SetProgress 100; SetFile (Some f)]
| hw_not_found :
    handler_writes u
      [ SetStatus Completed; SetProgress 100; SetFile None;
        SetStatus Error; SetError "File not found after download" ]
| hw_unreadable :
    handler_writes u
      [SetStatus Error; SetError "Failed to locate downloaded file"].

(** The name yt-dlp gives a file of job [jobId]: the template with
    [%(ext)s] expanded. *)
Definition output_name (jobId ext : string) : string := jobId ++ "." ++ ext.

(** The nominal height of a tier, [parseInt(format.resolution || "0")]. *)
Definition tier_height (format : Format) : option Z :=
  parseInt (or_else (resolution format) "0").

(** Whether the character [c] occurs in [s]. *)
Fixpoint has_char (c : ascii) (s : string) : bool :=
  match s with
  | EmptyString => false
  | String x s' => Ascii.eqb x c || has_char c s'
  end.

(** The stderr text kept for the error answer: the chunks that do not
    contain "WARNING:", joined in arrival order. *)
Fixpoint kept_stderr (es : list info_event) : string :=
  match es with
  | [] => ""
  | InfoStderr message :: es' =>
      if includes message "WARNING:" then kept_stderr es'
      else message ++ kept_stderr es'
  | _ :: es' => kept_stderr es'
  end.

(** Output events only: no launch error and no exit. *)
Definition is_output (e : info_event) : bool :=
  match e with
  | InfoStdout _ | InfoStderr _ => true
  | _ => false
  end.

(** * Properties *)

(** ** Strings and the progress pattern *)

Lemma append_nil_r (s : string) : s ++ "" = s.
Proof. induction s as [|c s IH]; simpl; [reflexivity | now rewrite IH]. Qed.

Lemma span_digits_sound (s d r : string) :
  span_digits s = (d, r) -> s = d ++ r /\ all_digits d = true /\ stops r.
Proof.
  revert d r; induction s as [|c s IH]; simpl; intros d r H.
  - inversion H; subst; simpl; auto.
  - destruct (is_digit c) eqn:Hc.
    + destruct (span_digits s) as [d' r'] eqn:Hs.
      inversion H; subst; clear H.
      destruct (IH d' r eq_refl) as (-> & Hd & Hr).
      simpl; rewrite Hc, Hd; auto.
    + inversion H; subst; simpl; auto.
Qed.

Lemma span_digits_complete (d r : string) :
  all_digits d = true -> stops r -> span_digits (d ++ r) = (d, r).
Proof.
  induction d as [|c d IH]; simpl; intros Hd Hr.
  - destruct r as [|c r]; simpl in *; [reflexivity | now rewrite Hr].
  - apply andb_true_iff in Hd as [Hc Hd].
    now rewrite Hc, (IH Hd Hr).
Qed.

Lemma match_here_sound (s d1 d2 : string) :
  match_here s = Some (d1, d2) -> exists post, occurs s "" d1 d2 post.
Proof.
  unfold match_here, occurs.
  destruct (span_digits s) as [e1 r1] eqn:H1.
  destruct e1 as [|c1 e1]; [discriminate|].
  destruct r1 as [|x r2]; [discriminate|].
  destruct (Ascii.eqb_spec x "."%char) as [->|Hx].
  2:{ destruct x as [[] [] [] [] [] [] [] []]; try discriminate; now elim Hx. }
  destruct (span_digits r2) as [e2 r3] eqn:H2.
  destruct e2 as [|c2 e2]; [discriminate|].
  destruct r3 as [|y post]; [discriminate|].
  destruct (Ascii.eqb_spec y "%"%char) as [->|Hy].
  2:{ destruct y as [[] [] [] [] [] [] [] []]; try discriminate; now elim Hy. }
  intros H; inversion H; subst; clear H.
  apply span_digits_sound in H1 as (-> & Hd1 & _).
  apply span_digits_sound in H2 as (-> & Hd2 & _).
  exists post; simpl; repeat split; try discriminate; auto.
Qed.

Lemma match_here_complete (s d1 d2 post : string) :
  occurs s "" d1 d2 post -> match_here s = Some (d1, d2).
Proof.
  intros (-> & N1 & D1 & N2 & D2).
  pose proof (span_digits_complete d1 (String "." (d2 ++ String "%" post)) D1 eq_refl) as E1.
  pose proof (span_digits_complete d2 (String "%" post) D2 eq_refl) as E2.
  unfold match_here; simpl. rewrite E1.
  destruct d1 as [|c1 d1]; [now elim N1|].
  rewrite E2.
  destruct d2 as [|c2 d2]; [now elim N2|].
  reflexivity.
Qed.

(** An occurrence past the first character is an occurrence in the tail. *)
Lemma occurs_tail (c : ascii) (s pre d1 d2 post : string) :
  occurs (String c s) (String c pre) d1 d2 post <-> occurs s pre d1 d2 post.
Proof.
  unfold occurs; simpl; split; intros (E & H); split; auto; congruence.
Qed.

Lemma occurs_head (c c' : ascii) (s pre d1 d2 post : string) :
  occurs (String c s) (String c' pre) d1 d2 post -> c' = c.
Proof. intros (E & _); simpl in E; congruence. Qed.

(** The groups of an occurrence are determined by its offset. *)
Lemma occurs_unique (s pre pre' d1 d2 post d1' d2' post' : string) :
  occurs s pre d1 d2 post -> occurs s pre' d1' d2' post' ->
  String.length pre = String.length pre' ->
  d1' = d1 /\ d2' = d2.
Proof.
  revert s pre'; induction pre as [|c pre IH]; intros s pre' H H' L.
  - destruct pre' as [|? ?]; [|discriminate].
    apply match_here_complete in H, H'. split; congruence.
  - destruct pre' as [|c' pre']; [discriminate|].
    destruct s as [|x s]; [destruct H as (E & _); discriminate|].
    pose proof (occurs_head _ _ _ _ _ _ _ H); subst c.
    pose proof (occurs_head _ _ _ _ _ _ _ H'); subst c'.
    apply -> occurs_tail in H; apply -> occurs_tail in H'.
    apply (IH s pre' H H'). simpl in L; congruence.
Qed.

Lemma regex_match_sound (s d1 d2 : string) :
  regex_match s = Some (d1, d2) ->
  exists pre post, occurs s pre d1 d2 post /\ leftmost s pre.
Proof.
  induction s as [|c s IH]; simpl.
  - discriminate.
  - destruct (match_here (String c s)) as [m|] eqn:Hm.
    + intros H; inversion H; subst m; clear H.
      destruct (match_here_sound _ _ _ Hm) as [post Ho].
      exists "", post; split; [exact Ho|].
      intros ? ? ? ? _; simpl; lia.
    + intros H; destruct (IH H) as (pre & post & Ho & Hl).
      exists (String c pre), post; split; [now apply occurs_tail|].
      intros pre' e1 e2 post' Ho'.
      destruct pre' as [|c' pre'].
      * apply match_here_complete in Ho'; congruence.
      * pose proof (occurs_head _ _ _ _ _ _ _ Ho'); subst c'.
        apply -> occurs_tail in Ho'. specialize (Hl _ _ _ _ Ho'). simpl; lia.
Qed.

Lemma regex_match_none (s : string) :
  regex_match s = None <-> (forall pre d1 d2 post, ~ occurs s pre d1 d2 post).
Proof.
  split.
  - induction s as [|c s IH]; simpl.
    + intros _ pre d1 d2 post (E & N1 & _).
      destruct pre; simpl in E; [destruct d1; [now elim N1|]|]; discriminate.
    + destruct (match_here (String c s)) as [m|] eqn:Hm; [discriminate|].
      intros H pre d1 d2 post Ho.
      destruct pre as [|c' pre].
      * apply match_here_complete in Ho; congruence.
      * pose proof (occurs_head _ _ _ _ _ _ _ Ho); subst c'.
        apply -> occurs_tail in Ho. exact (IH H _ _ _ _ Ho).
  - intros H. destruct (regex_match s) as [[d1 d2]|] eqn:E; [|reflexivity].
    destruct (regex_match_sound _ _ _ E) as (pre & post & Ho & _).
    now elim (H _ _ _ _ Ho).
Qed.

Lemma regex_match_complete (s pre d1 d2 post : string) :
  occurs s pre d1 d2 post -> leftmost s pre -> regex_match s = Some (d1, d2).
Proof.
  intros Ho Hl.
  destruct (regex_match s) as [[e1 e2]|] eqn:E.
  - destruct (regex_match_sound _ _ _ E) as (pre' & post' & Ho' & Hl').
    pose proof (Hl _ _ _ _ Ho'). pose proof (Hl' _ _ _ _ Ho).
    destruct (occurs_unique _ _ _ _ _ _ _ _ _ Ho Ho') as [-> ->]; [lia|reflexivity].
  - now elim (proj1 (regex_match_none s) E _ _ _ _ Ho).
Qed.

(** [parseFloat] reads the whole of capture group 1. *)
Lemma parseFloat_capture (d1 d2 : string) :
  d1 <> "" -> all_digits d1 = true -> d2 <> "" -> all_digits d2 = true ->
  parseFloat (capture (d1, d2)) = Some (decimal d1 d2).
Proof.
  intros N1 D1 N2 D2.
  pose proof (span_digits_complete d1 (String "." d2) D1 eq_refl) as E1.
  pose proof (span_digits_complete d2 "" D2 I) as E2.
  rewrite append_nil_r in E2.
  unfold parseFloat, capture; simpl. rewrite E1, E2.
  destruct d1; [now elim N1|reflexivity].
Qed.

Lemma parse_some (line : string) (v : Q) :
  parse line = Some v <->
  exists pre d1 d2 post,
    occurs line pre d1 d2 post /\ leftmost line pre /\ v = decimal d1 d2.
Proof.
  unfold parse; split.
  - destruct (regex_match line) as [[d1 d2]|] eqn:E; [|discriminate].
    destruct (regex_match_sound _ _ _ E) as (pre & post & Ho & Hl).
    pose proof Ho as (_ & N1 & D1 & N2 & D2).
    rewrite (parseFloat_capture _ _ N1 D1 N2 D2).
    intros H; inversion H; subst. now exists pre, d1, d2, post.
  - intros (pre & d1 & d2 & post & Ho & Hl & ->).
    rewrite (regex_match_complete _ _ _ _ _ Ho Hl).
    destruct Ho as (_ & N1 & D1 & N2 & D2).
    now apply parseFloat_capture.
Qed.

Lemma parse_none (line : string) :
  parse line = None <-> (forall pre d1 d2 post, ~ occurs line pre d1 d2 post).
Proof.
  rewrite <- regex_match_none. unfold parse.
  destruct (regex_match line) as [[d1 d2]|] eqn:E; [|tauto].
  destruct (regex_match_sound _ _ _ E) as (pre & post & (_ & N1 & D1 & N2 & D2) & _).
  rewrite (parseFloat_capture _ _ N1 D1 N2 D2). split; discriminate.
Qed.

(** ** Tables *)

Section TableFacts.
Context {V : Type}.
Implicit Types (t : list (string * V)) (k : string) (v : V).

Lemma get_assign_eq t k v : get k (assign k v t) = Some v.
Proof.
  induction t as [|[k' v'] t IH]; simpl.
  - now rewrite String.eqb_refl.
  - destruct (k =? k') eqn:E; simpl; [now rewrite String.eqb_refl | now rewrite E].
Qed.

Lemma get_assign_ne t k k' v : k <> k' -> get k (assign k' v t) = get k t.
Proof.
  intros N. apply String.eqb_neq in N.
  induction t as [|[k2 v2] t IH]; simpl.
  - now rewrite N.
  - destruct (k' =? k2) eqn:E; simpl.
    + apply String.eqb_eq in E; subst k2. now rewrite N.
    + now rewrite IH.
Qed.

Lemma get_delete_eq t k : get k (delete k t) = None.
Proof.
  induction t as [|[k' v'] t IH]; simpl; [reflexivity|].
  destruct (k =? k') eqn:E; simpl; [exact IH | now rewrite E].
Qed.

Lemma get_delete_ne t k k' : k <> k' -> get k (delete k' t) = get k t.
Proof.
  intros N. apply String.eqb_neq in N.
  induction t as [|[k2 v2] t IH]; simpl; [reflexivity|].
  destruct (k' =? k2) eqn:E; simpl.
  - apply String.eqb_eq in E; subst k2. now rewrite N.
  - now rewrite IH.
Qed.

(** Assigning to an own property keeps the enumeration order. *)
Lemma keys_assign_own t k v v0 :
  get k t = Some v0 -> keys (assign k v t) = keys t.
Proof.
  unfold keys. induction t as [|[k' v'] t IH]; simpl; [discriminate|].
  destruct (k =? k') eqn:E; simpl.
  - apply String.eqb_eq in E; now subst.
  - intros H; now rewrite IH.
Qed.

Lemma in_keys_get t k : In k (keys t) <-> get k t <> None.
Proof.
  unfold keys. induction t as [|[k' v'] t IH]; simpl.
  - split; [tauto | congruence].
  - destruct (String.eqb_spec k k') as [->|N].
    + split; [discriminate | auto].
    + rewrite <- IH. split; [intros [E|H]; [congruence|exact H] | auto].
Qed.

Lemma get_delete_some t k k' v : get k (delete k' t) = Some v -> get k t = Some v.
Proof.
  destruct (String.eqb_spec k k') as [->|N].
  - now rewrite get_delete_eq.
  - now rewrite get_delete_ne.
Qed.
(** Assigning the value that is already there changes nothing. *)
Lemma assign_same t k v : get k t = Some v -> assign k v t = t.
Proof.
  induction t as [|[k' v'] t IH]; simpl; [discriminate|].
  destruct (String.eqb_spec k k') as [->|N].
  - intros H; inversion H; now subst.
  - intros H; now rewrite IH.
Qed.
End TableFacts.

(** ** Identifiers *)

(** No member of [Object.prototype] has the shape of a UUID, so for the
    identifier of a handler [jobs[jobId]] is a job record or [undefined]. *)
Lemma uuid_not_inherited (s : string) :
  is_uuid s = true -> existsb (String.eqb s) object_prototype_keys = false.
Proof.
  intros U. destruct (existsb _ _) eqn:E; [|reflexivity].
  apply existsb_exists in E as (k & Hin & Hk).
  apply String.eqb_eq in Hk; subst k.
  simpl in Hin.
  repeat (destruct Hin as [<-|Hin]; [vm_compute in U; discriminate|]).
  destruct Hin.
Qed.

Lemma lookup_uuid (js : Jobs) (jobId : uuid) :
  lookup js jobId =
  match get jobId js with Some job => Own job | None => Undefined end.
Proof.
  unfold lookup. destruct (get jobId js); [reflexivity|].
  now rewrite (uuid_not_inherited _ (uuid_wf jobId)).
Qed.

(** ** Field writes *)

Lemma run_writes_createdAt (ws : list write) (job : Job) :
  createdAt (run_writes job ws) = createdAt job.
Proof.
  unfold run_writes. revert job.
  induction ws as [|w ws IH]; intros job; simpl; [reflexivity|].
  rewrite IH. now destruct w.
Qed.

(** What [update] does to the table, key by key. *)
Lemma update_get_same (js : Jobs) (jobId : uuid) (ws : list write) :
  get jobId (update js jobId ws) =
  match get jobId js with
  | Some job => Some (run_writes job ws)
  | None => None
  end.
Proof.
  unfold update. rewrite lookup_uuid.
  destruct (get jobId js) eqn:E; [apply get_assign_eq | exact E].
Qed.

Lemma update_get_other (js : Jobs) (jobId k : string) (ws : list write) :
  k <> jobId -> get k (update js jobId ws) = get k js.
Proof.
  intros N. unfold update.
  destruct (lookup js jobId); [now apply get_assign_ne | reflexivity | reflexivity].
Qed.

Lemma update_absent (js : Jobs) (jobId : uuid) (ws : list write) :
  get jobId js = None -> update js jobId ws = js.
Proof. intros E. unfold update. now rewrite lookup_uuid, E. Qed.

Lemma update_keys (js : Jobs) (jobId : string) (ws : list write) :
  keys (update js jobId ws) = keys js.
Proof.
  unfold update, lookup.
  destruct (get jobId js) eqn:E.
  - now apply keys_assign_own with (v0 := j).
  - now destruct (existsb _ _).
Qed.

(** A handler that writes nothing leaves the table as it was. *)
Lemma update_no_writes (js : Jobs) (jobId : string) : update js jobId [] = js.
Proof.
  unfold update, lookup. destruct (get jobId js) eqn:E.
  - now apply assign_same.
  - now destruct (existsb _ _).
Qed.

(** ** ProgressParser *)

Lemma digits_val_acc (s : string) (acc : Z) :
  (digits_val acc s = acc * 10 ^ Z.of_nat (String.length s) + digits_val 0 s)%Z.
Proof.
  revert acc; induction s as [|c s IH]; intros acc.
  - simpl. lia.
  - cbn [digits_val String.length].
    rewrite (IH (10 * acc + digit_val c)%Z), (IH (10 * 0 + digit_val c)%Z).
    rewrite Nat2Z.inj_succ, Z.pow_succ_r by lia. ring.
Qed.

Lemma digits_val_app (a b : string) (acc : Z) :
  digits_val acc (a ++ b) = digits_val (digits_val acc a) b.
Proof. revert acc; induction a as [|c a IH]; intros acc; simpl; auto. Qed.

(** [decimal d1 d2] is the integer written [d1] plus the integer written [d2]
    scaled by the number of fraction digits. *)
Lemma decimal_value (d1 d2 : string) :
  decimal d1 d2 ==
  inject_Z (digits_val 0 d1)
  + inject_Z (digits_val 0 d2) / inject_Z (10 ^ Z.of_nat (String.length d2)).
Proof.
  unfold decimal. rewrite Qred_correct.
  assert (P : (0 < 10 ^ Z.of_nat (String.length d2))%Z) by (apply Z.pow_pos_nonneg; lia).
  rewrite digits_val_app, digits_val_acc.
  set (n := (10 ^ Z.of_nat (String.length d2))%Z) in *.
  rewrite Qmake_Qdiv, Z2Pos.id by exact P.
  rewrite inject_Z_plus, inject_Z_mult.
  field. intros H.
  apply (proj1 (inject_Z_injective n 0%Z)) in H. lia.
Qed.

(** The decimal that [parse] reads is the one written by the leftmost
    occurrence in [line] of one or more digits, a point, one or more digits
    and a percent sign; there is none exactly when [line] has no such
    occurrence. *)
Theorem parse_recognizes_decimal_percent :
  (forall line v,
      parse line = Some v <->
      exists pre d1 d2 post,
        occurs line pre d1 d2 post /\ leftmost line pre /\ v = decimal d1 d2)
  /\ (forall line,
      parse line = None <-> forall pre d1 d2 post, ~ occurs line pre d1 d2 post)
  /\ parse "12.3% of 10.5MiB" = Some 12.3
  /\ parse "ERROR: no such format" = None
  /\ parse "100.0%" = Some 100.
Proof.
  split; [exact parse_some|].
  split; [exact parse_none|].
  repeat split; reflexivity.
Qed.

(** The point and the fraction digits are required: a whole percentage is
    not recognized, nor is one separated from its sign. *)
Example parse_needs_fraction :
  parse "50%" = None /\ parse "12.5 %" = None /\ parse "1.2.3%" = Some 2.3.
Proof. repeat split; reflexivity. Qed.

(** ** Progress updates *)

(** C6. A stdout line changes at most the [progress] field of the job it
    belongs to, whatever the status of that job, and only to the parsed
    value; when the record is absent the table is returned as it was; no
    other record and no key is touched. *)
Theorem stdout_update_writes_progress_only
  (js : Jobs) (jobId : uuid) (line : string) :
  match get jobId js with
  | Some job =>
      get jobId (on_stdout js jobId line) =
      Some (mkJob (status job)
                  (match parse line with Some p => p | None => progress job end)
                  (file job) (error job) (createdAt job))
  | None => on_stdout js jobId line = js
  end
  /\ (forall k : string, k <> jobId -> get k (on_stdout js jobId line) = get k js)
  /\ keys (on_stdout js jobId line) = keys js.
Proof.
  unfold on_stdout. split; [|split].
  - destruct (get jobId js) as [job|] eqn:E.
    + rewrite update_get_same, E. unfold stdout_writes.
      destruct (parse line); destruct job; reflexivity.
    + now apply update_absent.
  - intros k N. now apply update_get_other.
  - apply update_keys.
Qed.

(** A stdout line leaves the status of every record as it was. *)
Lemma stdout_update_frame_status (js : Jobs) (jobId : uuid) (line k : string) :
  match get k js, get k (on_stdout js jobId line) with
  | Some job, Some job' => status job' = status job
  | _, _ => True
  end.
Proof.
  unfold on_stdout.
  destruct (String.eqb_spec k jobId) as [->|N].
  - rewrite update_get_same. destruct (get jobId js) as [job|]; [|exact I].
    unfold stdout_writes. now destruct (parse line).
  - rewrite update_get_other by exact N. now destruct (get k js).
Qed.

(** ** Terminal events *)

Lemma on_error_get (js : Jobs) (jobId : uuid) (job : Job) :
  get jobId js = Some job ->
  get jobId (on_error js jobId) =
  Some (mkJob Error (progress job) (file job)
              (Some "Download process failed") (createdAt job)).
Proof.
  intros E. unfold on_error. rewrite update_get_same, E. now destruct job.
Qed.

Lemma on_close_nonzero (js : Jobs) (jobId : uuid) (code : option Z) (job : Job) :
  get jobId js = Some job -> nonzero code = true ->
  snd (on_close js jobId code) = None
  /\ get jobId (fst (on_close js jobId code)) =
     Some (mkJob Error (progress job) (file job)
                 (Some "Download failed") (createdAt job)).
Proof.
  intros E N. unfold on_close. rewrite lookup_uuid, E, N. simpl.
  rewrite update_get_same, E. now destruct job.
Qed.

Lemma on_close_zero (js : Jobs) (jobId : uuid) (job : Job) :
  get jobId js = Some job ->
  on_close js jobId (Some 0%Z) = (js, Some SETTLE_DELAY).
Proof. intros E. unfold on_close. now rewrite lookup_uuid, E. Qed.

Lemma on_close_absent (js : Jobs) (jobId : uuid) (code : option Z) :
  get jobId js = None -> on_close js jobId code = (js, None).
Proof. intros E. unfold on_close. now rewrite lookup_uuid, E. Qed.

Lemma uuid_length (s : string) : is_uuid s = true -> String.length s = 36%nat.
Proof.
  unfold is_uuid.
  assert (G : forall pos, uuid_from pos s = true -> (pos + String.length s = 36)%nat).
  { induction s as [|c s IH]; intros pos H; simpl in *.
    - apply Nat.eqb_eq in H. lia.
    - apply andb_true_iff in H as [_ H]. apply IH in H. lia. }
  intros H; apply (G 0%nat H).
Qed.

Lemma startsWith_uuid_nonempty (f : string) (jobId : uuid) :
  startsWith f jobId = true -> truthy (Some f) = true.
Proof.
  intros H. pose proof (uuid_length _ (uuid_wf jobId)) as L.
  destruct f as [|c f]; [|reflexivity].
  unfold startsWith in H. destruct (uuid_text jobId); simpl in *; discriminate.
Qed.

Lemma find_file_some (files : list string) (jobId f : string) :
  find_file files jobId = Some f -> In f files /\ startsWith f jobId = true.
Proof. intros H. apply find_some in H. exact H. Qed.

Lemma find_file_none (files : list string) (jobId : string) :
  find_file files jobId = None ->
  forall f, In f files -> startsWith f jobId = false.
Proof. intros H f. exact (find_none _ _ H f). Qed.

(** The table entry after the timer callback, by outcome of the scan. *)
Lemma on_timeout_get (js : Jobs) (d : Dir) (jobId : uuid) (job : Job) :
  get jobId js = Some job ->
  get jobId (on_timeout js d jobId) =
  Some match readdirSync d with
       | None =>
           mkJob Error (progress job) (file job)
                 (Some "Failed to locate downloaded file") (createdAt job)
       | Some files =>
           match find_file files jobId with
           | Some f => mkJob Completed 100 (Some f) (error job) (createdAt job)
           | None =>
               mkJob Error 100 None
                     (Some "File not found after download") (createdAt job)
           end
       end.
Proof.
  intros E. unfold on_timeout. rewrite update_get_same, E. f_equal.
  destruct (readdirSync d) as [files|]; [|now destruct job].
  unfold timeout_writes.
  destruct (find_file files jobId) as [f|] eqn:F; [|now destruct job].
  apply find_file_some in F as [_ P].
  rewrite (startsWith_uuid_nonempty _ _ P). now destruct job.
Qed.

(** C4. After exit code 0 the close handler leaves the record alone and arms
    the one-second timer; when the timer fires, a directory entry whose name
    starts with the job id (the first one listed) gives status completed,
    progress 100 and that name as file; no such entry gives status error with
    the message "File not found after download"; a directory that cannot be
    read gives status error with "Failed to locate downloaded file". *)
Theorem clean_exit_then_file_discovery
  (js : Jobs) (d : Dir) (jobId : uuid) (job : Job) :
  get jobId js = Some job ->
  on_close js jobId (Some 0%Z) = (js, Some 1000%Z)
  /\ match readdirSync d with
     | Some files =>
         match find_file files jobId with
         | Some f =>
             In f files /\ startsWith f jobId = true
             /\ get jobId (on_timeout js d jobId) =
                Some (mkJob Completed 100 (Some f) (error job) (createdAt job))
         | None =>
             (forall f, In f files -> startsWith f jobId = false)
             /\ get jobId (on_timeout js d jobId) =
                Some (mkJob Error 100 None
                            (Some "File not found after download")
                            (createdAt job))
         end
     | None =>
         get jobId (on_timeout js d jobId) =
         Some (mkJob Error (progress job) (file job)
                     (Some "Failed to locate downloaded file") (createdAt job))
     end.
Proof.
  intros E. split; [exact (on_close_zero _ _ _ E)|].
  rewrite (on_timeout_get _ d _ _ E).
  destruct (readdirSync d) as [files|]; [|reflexivity].
  destruct (find_file files jobId) as [f|] eqn:F.
  - destruct (find_file_some _ _ _ F). auto.
  - split; [now apply find_file_none | reflexivity].
Qed.

Lemma clean_exit_then_file_discovery_witness :
  get job_a (create_job [] job_a 5) = Some (new_job 5)
  /\ get job_a
       (on_timeout (create_job [] job_a 5)
          (mkDir true [("a81bc81b.part", Regular);
                       ("3f2b8c1e-7a4d-4e9b-9c55-0d1e2f3a4b5c.mp4", Regular)])
          job_a)
     = Some (mkJob Completed 100
               (Some "3f2b8c1e-7a4d-4e9b-9c55-0d1e2f3a4b5c.mp4") None 5).
Proof.
  split; [reflexivity|].
  exact (proj2 (proj2 (proj2
    (clean_exit_then_file_discovery (create_job [] job_a 5)
       (mkDir true [("a81bc81b.part", Regular);
                    ("3f2b8c1e-7a4d-4e9b-9c55-0d1e2f3a4b5c.mp4", Regular)])
       job_a (new_job 5) eq_refl)))).
Defined.

(** C7, as the code has it.  A launch failure stores status error with the
    message "Download process failed", an exit with a code other than 0
    stores status error with "Download failed"; both callbacks return
    normally and send nothing to a client, and the submission has answered
    with the job id before either can run. *)
Theorem process_failure_is_recorded
  (w : World) (jobId : uuid) (job : Job) (code : option Z) :
  get jobId (jobs w) = Some job ->
  nonzero code = true ->
  (exists w',
      step w (ProcessError jobId) = Returned w'
      /\ get jobId (jobs w') =
         Some (mkJob Error (progress job) (file job)
                     (Some "Download process failed") (createdAt job)))
  /\ (exists w',
      step w (Close jobId code) = Returned w'
      /\ get jobId (jobs w') =
         Some (mkJob Error (progress job) (file job)
                     (Some "Download failed") (createdAt job)))
  /\ respond w (ProcessError jobId) = None
  /\ respond w (Close jobId code) = None
  /\ (forall now, respond w (Submit jobId now) = Some (Accepted jobId)).
Proof.
  intros E N. repeat split.
  - eexists; split; [reflexivity|]. simpl. now apply on_error_get.
  - eexists; split; [reflexivity|]. simpl.
    exact (proj2 (on_close_nonzero _ _ _ _ E N)).
Qed.

Lemma process_failure_is_recorded_witness :
  get job_a (jobs (mkWorld (create_job [] job_a 7) (mkDir true []) [])) = Some (new_job 7)
  /\ nonzero (Some 1%Z) = true
  /\ exists w',
      step (mkWorld (create_job [] job_a 7) (mkDir true []) []) (Close job_a (Some 1%Z))
      = Returned w'
      /\ get job_a (jobs w') = Some (mkJob Error 0 None (Some "Download failed") 7).
Proof.
  split; [reflexivity|]. split; [reflexivity|].
  exact (proj1 (proj2
    (process_failure_is_recorded
       (mkWorld (create_job [] job_a 7) (mkDir true []) [])
       job_a (new_job 7) (Some 1%Z) eq_refl eq_refl))).
Defined.

(** C7 does not hold with the texts it quotes: the stored messages are
    other strings. *)
Lemma failure_messages_differ_from_quoted :
  (get job_a (on_error (create_job [] job_a 7) job_a)
   = Some (mkJob Error 0 None (Some "Download process failed") 7)
   /\ "Download process failed" <> "process launch failed")
  /\ (get job_a (fst (on_close (create_job [] job_a 7) job_a (Some 1%Z)))
      = Some (mkJob Error 0 None (Some "Download failed") 7)
      /\ "Download failed" <> "download failed").
Proof. repeat split; try reflexivity; discriminate. Qed.

(** ** The progress query *)

(** C8, at an identifier that names no job: [jobs["constructor"]] is the
    inherited [Object] function, which is truthy, so the handler falls
    through to its last branch and answers 200 with [success: true] and no
    status or progress, where "Job not found" (404) is meant. *)
Theorem query_for_inherited_key_is_not_404 :
  get "constructor" ([] : Jobs) = None
  /\ get_progress [] "constructor" = Res.mk 200 true None None None None
  /\ Res.code (get_progress [] "constructor") <> 404%Z.
Proof. repeat split; discriminate. Qed.

(** The same for every member of [Object.prototype] and every table. *)
Lemma query_for_any_inherited_key (js : Jobs) (k : string) :
  In k object_prototype_keys -> get k js = None ->
  get_progress js k = Res.mk 200 true None None None None.
Proof.
  intros I E. unfold get_progress, lookup. rewrite E.
  assert (X : existsb (String.eqb k) object_prototype_keys = true).
  { apply existsb_exists. exists k. split; [exact I | apply String.eqb_refl]. }
  now rewrite X.
Qed.

(** For every other identifier the query is the projection that C8
    describes: 404 when there is no record, otherwise a function of the
    record alone. *)
Lemma get_progress_projection (js : Jobs) (k : string) :
  ~ In k object_prototype_keys ->
  get_progress js k =
  match get k js with
  | None => Res.mk 404 false None None None (Some "Job not found")
  | Some job =>
      match status job with
      | Completed =>
          Res.mk 200 true (Some Completed) (Some 100)
                 (Some ("http://localhost:3000/downloads/" ++
                        match file job with Some f => f | None => "null" end))
                 None
      | Error =>
          Res.mk 200 false (Some Error) (Some (progress job)) None
                 (Some (or_else (error job) "Unknown error"))
      | s => Res.mk 200 true (Some s) (Some (progress job)) None None
      end
  end.
Proof.
  intros N. unfold get_progress, lookup.
  destruct (get k js) as [job|]; [reflexivity|].
  destruct (existsb _ _) eqn:X; [|reflexivity].
  apply existsb_exists in X as (k' & I & Q).
  apply String.eqb_eq in Q; subst k'. now elim N.
Qed.

Lemma query_is_read_only (w : World) (k : string) :
  step w (Query k) = Returned w.
Proof. reflexivity. Qed.

(** ** What a sweep can change *)

Lemma shrinks_refl (w : World) : shrinks w w.
Proof. repeat split; auto. exists []. now rewrite app_nil_r. Qed.

Lemma shrinks_trans (a b c : World) : shrinks a b -> shrinks b c -> shrinks a c.
Proof.
  intros (J1 & D1 & L1 & n1 & G1) (J2 & D2 & L2 & n2 & G2).
  repeat split; auto; [congruence|].
  exists (n1 ++ n2)%list. now rewrite G2, G1, app_assoc.
Qed.

Lemma remove_file_shrinks (w : World) (job : Job) :
  shrinks w (world_of (remove_file w job))
  /\ jobs (world_of (remove_file w job)) = jobs w.
Proof.
  unfold remove_file.
  destruct (file job) as [f|]; [|split; [apply shrinks_refl|reflexivity]].
  destruct (negb (f =? "") && existsSync (disk w) f);
    [|split; [apply shrinks_refl|reflexivity]].
  unfold unlinkSync.
  destruct (get f (entries (disk w))) as [[|]|];
    try (split; [apply shrinks_refl|reflexivity]).
  simpl. split; [|reflexivity]. repeat split; simpl; auto.
  - intros f' e. apply get_delete_some.
  - now exists [Unlink f].
Qed.

Lemma cleanup_job_shrinks (now : Z) (w : World) (k : string) :
  shrinks w (world_of (cleanup_job now w k)).
Proof.
  unfold cleanup_job.
  destruct (lookup (jobs w) k) as [job| |]; try apply shrinks_refl.
  destruct (now - createdAt job >? JOB_CLEANUP_TIME)%Z; [|apply shrinks_refl].
  destruct (remove_file_shrinks w job) as [S J].
  destruct (remove_file w job) as [w'|w']; simpl in *; [|exact S].
  apply (shrinks_trans _ _ _ S).
  repeat split; simpl; auto.
  - intros k' j. apply get_delete_some.
  - now exists [DeleteRecord k].
Qed.

Lemma cleanup_keys_shrinks (now : Z) (ks : list string) (w : World) :
  shrinks w (world_of (cleanup_keys now ks w)).
Proof.
  revert w; induction ks as [|k ks IH]; intros w; simpl.
  - apply shrinks_refl.
  - pose proof (cleanup_job_shrinks now w k) as S.
    destruct (cleanup_job now w k) as [w'|w']; simpl in *; [|exact S].
    exact (shrinks_trans _ _ _ S (IH w')).
Qed.

(** ** Status *)

(** The four yt-dlp callbacks as guarded lists of writes. *)
Lemma step_handler (w : World) (e : event) (u : uuid) :
  target e = Some u ->
  step w e = Returned (with_jobs w (update (jobs w) u (writes_of w e))).
Proof.
  destruct e; simpl; intros H; inversion H; subst; try reflexivity.
  unfold on_close. rewrite lookup_uuid.
  destruct (get u (jobs w)) eqn:E.
  - destruct (nonzero code); simpl; [reflexivity|].
    now rewrite update_no_writes.
  - simpl. now rewrite update_absent.
Qed.

(** Every status a handler writes is completed or error. *)
Lemma writes_of_status (w : World) (e : event) (s : Status) :
  In (SetStatus s) (writes_of w e) -> s = Completed \/ s = Error.
Proof.
  destruct e; simpl; try tauto.
  - unfold stdout_writes. destruct (parse line); simpl; intuition discriminate.
  - intuition congruence.
  - destruct (nonzero code); simpl; intuition congruence.
  - unfold timeout_writes. destruct (readdirSync (disk w)) as [files|]; simpl.
    + destruct (truthy (find_file files jobId)); simpl; intuition congruence.
    + intuition congruence.
Qed.

Lemma run_writes_status (ws : list write) (job : Job) :
  status (run_writes job ws) = status job
  \/ In (SetStatus (status (run_writes job ws))) ws.
Proof.
  unfold run_writes. revert job.
  induction ws as [|x ws IH]; intros job; simpl; [now left|].
  destruct (IH (apply_write job x)) as [H|H]; [|now right; right].
  rewrite H. destruct x; simpl; auto.
Qed.

(** A record that is in the table after a callback was there before it,
    with the same status or with one the callback wrote, unless the callback
    is the submission that created it. *)
Lemma step_status (w : World) (e : event) (k : string) (job' : Job) :
  get k (jobs (world_of (step w e))) = Some job' ->
  (exists job, get k (jobs w) = Some job
               /\ (status job' = status job
                   \/ status job' = Completed \/ status job' = Error))
  \/ (exists (u : uuid) now, e = Submit u now /\ k = u /\ job' = new_job now).
Proof.
  intros G.
  destruct (target e) as [u|] eqn:T.
  - rewrite (step_handler _ _ _ T) in G. simpl in G. left.
    destruct (String.eqb_spec k u) as [->|N].
    + rewrite update_get_same in G.
      destruct (get u (jobs w)) as [job|]; [|discriminate].
      inversion G; subst job'. exists job. split; [reflexivity|].
      destruct (run_writes_status (writes_of w e) job) as [H|H]; [now left|].
      right. exact (writes_of_status _ _ _ H).
    + rewrite update_get_other in G by exact N. exists job'. auto.
  - destruct e; try discriminate; simpl in *.
    + unfold create_job in G.
      destruct (String.eqb_spec k jobId) as [->|N].
      * rewrite get_assign_eq in G. inversion G; subst. right.
        exists jobId, now. auto.
      * rewrite get_assign_ne in G by exact N. left; eauto.
    + left; eauto.
    + left. exists job'. split; [|now left].
      exact (proj1 (cleanup_keys_shrinks now _ w) _ _ G).
    + left; eauto.
Qed.

(** In whatever order callbacks come, across any one of them (a submission
    using an identifier not in the table) the status of a record that stays
    in the table does not move back along pending, downloading, processing,
    completed-or-error, and a stdout line does not change it at all. *)
Theorem status_rank_never_decreases_across_a_callback
  (w : World) (e : event) (k : string) (job job' : Job) :
  fresh w e ->
  get k (jobs w) = Some job ->
  get k (jobs (world_of (step w e))) = Some job' ->
  (rank (status job) <= rank (status job'))%nat
  /\ (forall u line, e = StdoutData u line -> status job' = status job).
Proof.
  intros F G G'.
  destruct (step_status _ _ _ _ G') as [(j & Gj & H)|(u & now & -> & -> & _)].
  - rewrite G in Gj; inversion Gj; subst j. split.
    + destruct H as [->|[->| ->]]; [lia| |]; destruct (status job); simpl; lia.
    + intros u line ->. simpl in G'.
      pose proof (stdout_update_frame_status (jobs w) u line k) as X.
      rewrite G, G' in X. exact X.
  - simpl in F. congruence.
Qed.

Lemma status_rank_never_decreases_across_a_callback_witness :
  fresh (mkWorld (create_job [] job_a 7) (mkDir true []) []) (Timeout job_a)
  /\ (rank Downloading <= rank Error)%nat.
Proof.
  split; [exact I|].
  exact (proj1
    (status_rank_never_decreases_across_a_callback
       (mkWorld (create_job [] job_a 7) (mkDir true []) []) (Timeout job_a)
       job_a (new_job 7)
       (mkJob Error 100 None (Some "File not found after download") 7)
       I eq_refl eq_refl)).
Defined.

(** The record a handler leaves is the last of the records it wrote. *)
Lemma run_writes_last (ws : list write) (job d : Job) :
  last (intermediate job ws) d =
  match ws with
  | [] => d
  | _ :: _ => run_writes job ws
  end.
Proof.
  unfold run_writes. revert job d.
  induction ws as [|x ws IH]; intros job d; [reflexivity|].
  cbn [fold_left intermediate].
  specialize (IH (apply_write job x) d).
  destruct ws as [|y ws]; [reflexivity|].
  cbn [intermediate last] in *. exact IH.
Qed.

(** C2 fails inside the timer callback: when the scan finds no file, the
    five assignments made to the record of a downloading job leave it
    completed (with progress 100) three times over and only then error. *)
Lemma file_discovery_writes_completed_then_error :
  get job_a (create_job [] job_a 7) = Some (mkJob Downloading 0 None None 7)
  /\ readdirSync (mkDir true []) = Some []
  /\ intermediate (mkJob Downloading 0 None None 7)
       (timeout_writes (Some []) job_a)
     = [ mkJob Completed 0 None None 7;
         mkJob Completed 100 None None 7;
         mkJob Completed 100 None None 7;
         mkJob Error 100 None None 7;
         mkJob Error 100 None (Some "File not found after download") 7 ]
  /\ get job_a
       (on_timeout (create_job [] job_a 7) (mkDir true []) job_a)
     = Some (mkJob Error 100 None (Some "File not found after download") 7).
Proof. repeat split; reflexivity. Qed.

(** C10. In every state the server can reach, each record has status
    downloading, completed or error; a record is created with status
    downloading; and every status a handler writes, the intermediate ones
    included, is completed or error. *)
Theorem pending_and_processing_are_never_stored :
  (forall (d : Dir) (es : list event) (k : string) (job : Job),
      get k (jobs (world_of (run (initial d) es))) = Some job ->
      status job = Downloading \/ status job = Completed \/ status job = Error)
  /\ (forall (js : Jobs) (jobId : uuid) (now : Z),
      get jobId (create_job js jobId now) = Some (mkJob Downloading 0 None None now))
  /\ (forall (w : World) (e : event) (s : Status),
      In (SetStatus s) (writes_of w e) -> s = Completed \/ s = Error).
Proof.
  split; [|split].
  - intros d es.
    assert (G : forall w,
      (forall k job, get k (jobs w) = Some job ->
         status job = Downloading \/ status job = Completed \/ status job = Error) ->
      forall k job, get k (jobs (world_of (run w es))) = Some job ->
         status job = Downloading \/ status job = Completed \/ status job = Error).
    { induction es as [|e es IH]; intros w Inv; simpl; [exact Inv|].
      assert (Inv' : forall k job, get k (jobs (world_of (step w e))) = Some job ->
         status job = Downloading \/ status job = Completed \/ status job = Error).
      { intros k job' G'.
        destruct (step_status _ _ _ _ G') as [(j & Gj & H)|(u & now & _ & _ & ->)].
        - destruct H as [->|H]; [exact (Inv _ _ Gj)|tauto].
        - now left. }
      destruct (step w e) as [w'|w']; simpl in *; [now apply IH|exact Inv']. }
    apply G. simpl. discriminate.
  - intros. apply get_assign_eq.
  - exact writes_of_status.
Qed.

(** ** Polling during a download *)

Lemma poll_downloading (js : Jobs) (jobId : uuid) (job : Job) :
  get jobId js = Some job -> status job = Downloading ->
  poll js jobId = Some (progress job).
Proof.
  intros G S. unfold poll, get_progress. now rewrite lookup_uuid, G, S.
Qed.

Lemma on_stdout_get (js : Jobs) (u jobId : uuid) (line : string) (job : Job) :
  get jobId js = Some job ->
  get jobId (on_stdout js u line) =
  Some (mkJob (status job)
              (match (if (u =? jobId)%string then parse line else None) with
               | Some p => p
               | None => progress job
               end)
              (file job) (error job) (createdAt job)).
Proof.
  intros G. unfold on_stdout.
  destruct (String.eqb_spec u jobId) as [E|N].
  - rewrite <- E in *. rewrite update_get_same, G. unfold stdout_writes.
    destruct (parse line); now destruct job.
  - rewrite update_get_other by congruence. rewrite G. now destruct job.
Qed.

Lemma ascending_latest (jobId : uuid) (out : list (uuid * string)) (cur : Q) :
  ascending cur (reports jobId out) -> ascending cur (latest cur jobId out).
Proof.
  revert cur; induction out as [|[u line] out IH]; intros cur; simpl; [auto|].
  destruct (if (u =? jobId)%string then parse line else None) as [p|]; simpl.
  - intros [H1 H2]. split; [exact H1 | now apply IH].
  - intros H. split; [apply Qle_refl | now apply IH].
Qed.

(** C3, as the code has it.  While a job is downloading, each poll returns
    what the most recent stdout data chunk of the job in which the pattern
    matches made the handler write, that is the value of the first match in
    that chunk (the progress so far when no chunk has matched), whatever
    other jobs print in between; so the polled values ascend whenever the
    values written for the job's successive chunks do.  A chunk is what one
    [data] event delivers: it need not be one line of output. *)
Theorem polled_progress_is_latest_report
  (js : Jobs) (jobId : uuid) (job : Job) (out : list (uuid * string)) :
  get jobId js = Some job ->
  status job = Downloading ->
  polls js jobId out = map Some (latest (progress job) jobId out)
  /\ (ascending (progress job) (reports jobId out) ->
      ascending (progress job) (latest (progress job) jobId out)).
Proof.
  intros G S. split; [|apply ascending_latest].
  revert js job G S; induction out as [|[u line] out IH]; intros js job G S; simpl.
  - reflexivity.
  - pose proof (on_stdout_get js u jobId line job G) as G'.
    rewrite (poll_downloading _ _ _ G' S).
    rewrite (IH _ _ G' S). reflexivity.
Qed.

Lemma polled_progress_is_latest_report_witness :
  get job_a (create_job [] job_a 0) = Some (new_job 0)
  /\ status (new_job 0) = Downloading
  /\ polls (create_job [] job_a 0) job_a
       [(job_a, "[download]  10.0% of 3MiB"); (job_b, "[download]  99.9% of 1MiB");
        (job_a, "[download]  50.0% of 3MiB")]
     = [Some 10; Some 10; Some 50].
Proof.
  split; [reflexivity|]. split; [reflexivity|].
  exact (proj1
    (polled_progress_is_latest_report (create_job [] job_a 0) job_a (new_job 0)
       [(job_a, "[download]  10.0% of 3MiB"); (job_b, "[download]  99.9% of 1MiB");
        (job_a, "[download]  50.0% of 3MiB")]
       eq_refl eq_refl)).
Defined.

(** C3 fails: nothing keeps a later chunk from reporting less, as yt-dlp
    does when it starts on the audio stream after the video stream. *)
Lemma polled_progress_can_decrease :
  polls (create_job [] job_a 0) job_a
    [(job_a, "[download]  50.0% of 10MiB"); (job_a, "[download]  10.0% of 3MiB")]
  = [Some 50; Some 10]
  /\ 10 < 50
  /\ get job_a
       (on_stdout (on_stdout (create_job [] job_a 0) job_a "[download]  50.0% of 10MiB")
          job_a "[download]  10.0% of 3MiB")
     = Some (mkJob Downloading 10 None None 0).
Proof. repeat split; reflexivity. Qed.

(** ** The retention sweep *)

(** One iteration of the loop, case by case. *)
Lemma cleanup_job_cases (now : Z) (w : World) (k : string) :
  cleanup_job now w k =
  match get k (jobs w) with
  | Some job =>
      if expired now job then
        match backing_file job with
        | Some f =>
            match get f (entries (disk w)) with
            | Some Regular =>
                Returned (mkWorld (delete k (jobs w))
                            (mkDir (listable (disk w)) (delete f (entries (disk w))))
                            ((log w ++ [Unlink f]) ++ [DeleteRecord k]))
            | Some Undeletable => Threw w
            | None =>
                Returned (mkWorld (delete k (jobs w)) (disk w)
                            (log w ++ [DeleteRecord k]))
            end
        | None =>
            Returned (mkWorld (delete k (jobs w)) (disk w)
                        (log w ++ [DeleteRecord k]))
        end
      else Returned w
  | None => Returned w
  end.
Proof.
  unfold cleanup_job, lookup, expired, backing_file, remove_file, existsSync, unlinkSync.
  destruct (get k (jobs w)) as [job|].
  - destruct (now - createdAt job >? JOB_CLEANUP_TIME)%Z; [|reflexivity].
    destruct (file job) as [f|]; [|reflexivity].
    destruct (f =? ""); simpl; [reflexivity|].
    destruct (get f (entries (disk w))) as [[|]|]; reflexivity.
  - now destruct (existsb _ _).
Qed.

(** A property kept by every iteration holds when the loop is left. *)
Lemma cleanup_keys_invariant (P : World -> Prop) (now : Z) :
  (forall w k, P w -> P (world_of (cleanup_job now w k))) ->
  forall ks w, P w -> P (world_of (cleanup_keys now ks w)).
Proof.
  intros Step ks; induction ks as [|k ks IH]; intros w H; simpl; [exact H|].
  specialize (Step w k H).
  destruct (cleanup_job now w k) as [w'|w']; simpl in *; [now apply IH | exact Step].
Qed.

Lemma existsb_keys {V : Type} (t : list (string * V)) (k : string) (v : V) :
  get k t = Some v -> existsb (String.eqb k) (keys t) = true.
Proof.
  intros G. apply existsb_exists. exists k. split; [|apply String.eqb_refl].
  apply in_keys_get. congruence.
Qed.

(** The table after a loop that was not left by an exception. *)
Lemma cleanup_keys_jobs (now : Z) (ks : list string) (w w' : World) :
  cleanup_keys now ks w = Returned w' ->
  forall k,
    get k (jobs w') =
    match get k (jobs w) with
    | Some job =>
        if existsb (String.eqb k) ks && expired now job then None else Some job
    | None => None
    end.
Proof.
  revert w; induction ks as [|k0 ks IH]; intros w R k; simpl in R.
  - inversion R; subst. simpl. now destruct (get k (jobs w')).
  - destruct (cleanup_job now w k0) as [w1|w1] eqn:C; [|discriminate].
    rewrite (IH _ R k). clear IH R. simpl.
    rewrite cleanup_job_cases in C.
    assert (D : (jobs w1 = jobs w
                 /\ match get k0 (jobs w) with
                    | Some job => expired now job = false
                    | None => True
                    end)
                \/ (jobs w1 = delete k0 (jobs w)
                    /\ exists job, get k0 (jobs w) = Some job
                                   /\ expired now job = true)).
    { destruct (get k0 (jobs w)) as [job|] eqn:G0.
      - destruct (expired now job) eqn:X.
        + right. split; [|eauto].
          destruct (backing_file job) as [f|];
            [destruct (get f (entries (disk w))) as [[|]|]|];
            inversion C; reflexivity.
        + left. inversion C; auto.
      - left. inversion C; auto. }
    destruct D as [[-> Y]|[-> (job0 & G0 & X)]].
    + destruct (String.eqb_spec k k0) as [->|N]; [|reflexivity].
      destruct (get k0 (jobs w)) as [job|]; [|reflexivity].
      rewrite Y. now rewrite andb_false_r.
    + destruct (String.eqb_spec k k0) as [->|N].
      * rewrite get_delete_eq, G0, X. reflexivity.
      * rewrite get_delete_ne by exact N. reflexivity.
Qed.

Lemma cleanup_keys_returns (now : Z) (ks : list string) (w : World) :
  (forall k job, get k (jobs w) = Some job -> expired now job = true ->
                 ~ unlink_throws (disk w) job) ->
  exists w', cleanup_keys now ks w = Returned w'.
Proof.
  revert w; induction ks as [|k0 ks IH]; intros w H; simpl; [eauto|].
  pose proof (cleanup_job_shrinks now w k0) as (SJ & SD & _).
  assert (R : exists w1, cleanup_job now w k0 = Returned w1).
  { rewrite cleanup_job_cases.
    destruct (get k0 (jobs w)) as [job|] eqn:G0; [|eauto].
    destruct (expired now job) eqn:X; [|eauto].
    destruct (backing_file job) as [f|] eqn:B; [|eauto].
    destruct (get f (entries (disk w))) as [[|]|] eqn:E; eauto.
    elim (H _ _ G0 X). now exists f. }
  destruct R as [w1 R]. rewrite R in *. simpl in *.
  apply IH. intros k job G X (f & B & E).
  apply (H k job (SJ _ _ G) X). exists f. split; [exact B|exact (SD _ _ E)].
Qed.

(** C1, as the code has it.  A sweep in which no [fs.unlinkSync] throws
    returns normally after visiting every key: a record whose file is not
    recorded or no longer exists is not an error, every expired record is
    removed and every other record is left as it was. *)
Theorem cleanup_completes_when_no_unlink_throws (now : Z) (w : World) :
  (forall k job, get k (jobs w) = Some job -> expired now job = true ->
                 ~ unlink_throws (disk w) job) ->
  exists w',
    cleanup now w = Returned w'
    /\ forall k,
         get k (jobs w') =
         match get k (jobs w) with
         | Some job => if expired now job then None else Some job
         | None => None
         end.
Proof.
  intros H. destruct (cleanup_keys_returns now (keys (jobs w)) w H) as [w' R].
  exists w'. split; [exact R|]. intros k.
  rewrite (cleanup_keys_jobs _ _ _ _ R k).
  destruct (get k (jobs w)) as [job|] eqn:G; [|reflexivity].
  now rewrite (existsb_keys _ _ _ G).
Qed.

Lemma mixed_unlinks_succeed (k : string) (job : Job) :
  get k (jobs mixed) = Some job -> expired 4000000 job = true ->
  ~ unlink_throws (disk mixed) job.
Proof.
  cbn [mixed jobs disk get]. intros G X (f & B & E).
  destruct (k =? job_a)%string.
  - injection G as <-. injection B as <-. discriminate E.
  - destruct (k =? job_b)%string; [|discriminate G].
    injection G as <-. discriminate X.
Qed.

Lemma cleanup_completes_when_no_unlink_throws_witness :
  exists w',
    cleanup 4000000 mixed = Returned w'
    /\ forall k,
         get k (jobs w') =
         match get k (jobs mixed) with
         | Some job => if expired 4000000 job then None else Some job
         | None => None
         end.
Proof.
  exact (cleanup_completes_when_no_unlink_throws 4000000 mixed mixed_unlinks_succeed).
Defined.

(** C1 fails: the exception of [fs.unlinkSync] leaves the [forEach] and the
    timer callback.  The second record, expired and with a file that could
    be deleted, is not reached, and no later sweep runs. *)
Lemma cleanup_throws_on_failed_unlink :
  cleanup 4000000 stuck = Threw stuck
  /\ get job_b (jobs stuck) = Some (mkJob Completed 100 (Some file_b) None 1000)
  /\ expired 4000000 (mkJob Completed 100 (Some file_b) None 1000) = true
  /\ get file_b (entries (disk stuck)) = Some Regular
  /\ run stuck [Sweep 4000000; Sweep 4600000] = Threw stuck.
Proof. repeat split; reflexivity. Qed.

(** *** Which records and files a sweep removes *)

Lemma paired_app (now : Z) (js : Jobs) (l1 l2 : list effect) :
  paired now js l1 -> paired now js l2 -> paired now js (l1 ++ l2).
Proof.
  intros P1 P2. induction P1; simpl; [exact P2| |].
  - eapply paired_record; eauto.
  - eapply paired_file; eauto.
Qed.

Lemma cleanup_job_iteration (now : Z) (w : World) (k : string) :
  iteration now k w (world_of (cleanup_job now w k)).
Proof.
  rewrite cleanup_job_cases.
  destruct (get k (jobs w)) as [job|] eqn:G; [|now apply it_skip].
  destruct (expired now job) eqn:X; [|now apply it_skip].
  destruct (backing_file job) as [f|] eqn:B.
  - destruct (get f (entries (disk w))) as [[|]|] eqn:E.
    + apply (it_file _ _ _ _ job f); auto. simpl. now rewrite <- app_assoc.
    + now apply it_skip.
    + apply (it_record _ _ _ _ job); auto. now rewrite B.
  - apply (it_record _ _ _ _ job); auto. now rewrite B.
Qed.

(** A record that has not expired is still there after the sweep. *)
Lemma cleanup_keeps_young (now : Z) (ks : list string) (w : World)
      (k : string) (job : Job) :
  get k (jobs w) = Some job -> expired now job = false ->
  get k (jobs (world_of (cleanup_keys now ks w))) = Some job.
Proof.
  intros G X.
  apply (cleanup_keys_invariant (fun w1 => get k (jobs w1) = Some job)); [|exact G].
  intros w1 k0 G1.
  destruct (cleanup_job_iteration now w1 k0) as [->|job0 G0 X0 _ ->|job0 f G0 X0 _ _ ->];
    [exact G1| |]; simpl;
    (destruct (String.eqb_spec k k0) as [->|N];
     [congruence | now rewrite get_delete_ne]).
Qed.

(** Once a record has been removed, the file it recorded is not there. *)
Lemma cleanup_removes_file_first (now : Z) (ks : list string) (w : World)
      (k : string) (job : Job) (f : string) :
  get k (jobs w) = Some job -> backing_file job = Some f ->
  get k (jobs (world_of (cleanup_keys now ks w))) = None ->
  get f (entries (disk (world_of (cleanup_keys now ks w)))) = None.
Proof.
  intros G B.
  assert (H : get k (jobs (world_of (cleanup_keys now ks w))) = Some job
              \/ get f (entries (disk (world_of (cleanup_keys now ks w)))) = None).
  { apply (cleanup_keys_invariant
             (fun w1 => get k (jobs w1) = Some job
                        \/ get f (entries (disk w1)) = None)); [|now left].
    intros w1 k0 [G1|E1].
    - destruct (cleanup_job_iteration now w1 k0)
        as [->|job0 G0 X0 M ->|job0 f0 G0 X0 B0 E0 ->]; [now left| |]; simpl;
        (destruct (String.eqb_spec k k0) as [->|N];
         [|left; now rewrite get_delete_ne]); right.
      + rewrite G1 in G0. injection G0 as <-. now rewrite B in M.
      + rewrite G1 in G0. injection G0 as <-. rewrite B in B0.
        injection B0 as <-. apply get_delete_eq.
    - right. destruct (cleanup_job_shrinks now w1 k0) as (_ & SD & _).
      destruct (get f (entries (disk (world_of (cleanup_job now w1 k0))))) as [e|] eqn:E;
        [|reflexivity].
      rewrite (SD _ _ E) in E1. discriminate. }
  intros N. destruct H as [H|H]; [congruence | exact H].
Qed.

(** A file that no expired record names is left alone. *)
Lemma cleanup_keeps_other_files (now : Z) (ks : list string) (w : World)
      (f : string) :
  (forall k job, get k (jobs w) = Some job -> expired now job = true ->
                 backing_file job <> Some f) ->
  get f (entries (disk (world_of (cleanup_keys now ks w)))) = get f (entries (disk w)).
Proof.
  intros H.
  apply (cleanup_keys_invariant
           (fun w1 => (forall k j, get k (jobs w1) = Some j -> get k (jobs w) = Some j)
                      /\ get f (entries (disk w1)) = get f (entries (disk w))));
    [|auto].
  intros w1 k0 [S E].
  destruct (cleanup_job_iteration now w1 k0)
    as [->|job0 G0 X0 M ->|job0 f0 G0 X0 B0 E0 ->]; [auto| |]; simpl; split;
    try (intros k j Gk; apply S; exact (get_delete_some _ _ _ _ Gk)); [exact E|].
  rewrite get_delete_ne; [exact E|].
  intros ->. exact (H _ _ (S _ _ G0) X0 B0).
Qed.

(** The log grows by removals in the order file, then record. *)
Lemma cleanup_log_paired (now : Z) (ks : list string) (w : World) :
  exists new,
    log (world_of (cleanup_keys now ks w)) = (log w ++ new)%list
    /\ paired now (jobs w) new.
Proof.
  apply (cleanup_keys_invariant
           (fun w1 => (forall k j, get k (jobs w1) = Some j -> get k (jobs w) = Some j)
                      /\ exists new, log w1 = (log w ++ new)%list /\ paired now (jobs w) new)).
  - intros w1 k0 (S & new & L & P).
    destruct (cleanup_job_iteration now w1 k0)
      as [->|job0 G0 X0 M ->|job0 f0 G0 X0 B0 E0 ->]; [eauto| |]; simpl; split;
      try (intros k j Gk; apply S; exact (get_delete_some _ _ _ _ Gk)).
    + exists (new ++ [DeleteRecord k0])%list. rewrite L, app_assoc. split; [reflexivity|].
      apply paired_app; [exact P|].
      eapply paired_record; eauto. constructor.
    + exists (new ++ [Unlink f0; DeleteRecord k0])%list. rewrite L, app_assoc.
      split; [reflexivity|]. apply paired_app; [exact P|].
      eapply paired_file; eauto. constructor.
  - split; [auto|]. exists []. split; [now rewrite app_nil_r | constructor].
Qed.

(** *** Files belong to one job *)

Lemma prefix_same_length (a b s : string) :
  String.prefix a s = true -> String.prefix b s = true ->
  String.length a = String.length b -> a = b.
Proof.
  revert b s; induction a as [|x a IH]; intros [|y b] [|c s]; simpl;
    try discriminate; try reflexivity.
  destruct (ascii_dec x c) as [->|]; [|discriminate].
  destruct (ascii_dec y c) as [->|]; [|discriminate].
  intros Ha Hb L. f_equal. apply (IH b s Ha Hb). congruence.
Qed.

Lemma run_writes_file (ws : list write) (job : Job) :
  file (run_writes job ws) = file job
  \/ In (SetFile (file (run_writes job ws))) ws.
Proof.
  unfold run_writes. revert job.
  induction ws as [|x ws IH]; intros job; simpl; [now left|].
  destruct (IH (apply_write job x)) as [H|H]; [|now right; right].
  rewrite H. destruct x; simpl; auto.
Qed.

Lemma writes_of_file (w : World) (e : event) (u : uuid) (f : string) :
  target e = Some u -> In (SetFile (Some f)) (writes_of w e) ->
  startsWith f u = true.
Proof.
  destruct e; simpl; try discriminate; intros T; injection T as ->.
  - unfold stdout_writes. destruct (parse line); simpl; intuition discriminate.
  - intuition discriminate.
  - destruct (nonzero code); simpl; intuition discriminate.
  - unfold timeout_writes. destruct (readdirSync (disk w)) as [files|]; simpl;
      [|intuition discriminate].
    destruct (find_file files u) as [f'|] eqn:F; simpl.
    + destruct (negb (f' =? "")); simpl; intros H;
        repeat (destruct H as [H|H]; try discriminate H); try contradiction.
      injection H as ->. exact (proj2 (find_file_some _ _ _ F)).
    + intros H; repeat (destruct H as [H|H]; try discriminate H); contradiction.
Qed.

Lemma step_owned (w : World) (e : event) :
  owned (jobs w) -> owned (jobs (world_of (step w e))).
Proof.
  intros O k job' f G F.
  destruct (target e) as [u|] eqn:T.
  - rewrite (step_handler _ _ _ T) in G. simpl in G.
    destruct (String.eqb_spec k u) as [->|N].
    + rewrite update_get_same in G.
      destruct (get u (jobs w)) as [job|] eqn:G0; [|discriminate].
      injection G as <-.
      destruct (run_writes_file (writes_of w e) job) as [H|H].
      * rewrite H in F. exact (O _ _ _ G0 F).
      * rewrite F in H. split; [apply uuid_wf|].
        exact (writes_of_file _ _ _ _ T H).
    + rewrite update_get_other in G by exact N. exact (O _ _ _ G F).
  - destruct e; try discriminate; simpl in *.
    + unfold create_job in G.
      destruct (String.eqb_spec k jobId) as [->|N].
      * rewrite get_assign_eq in G. injection G as <-. discriminate.
      * rewrite get_assign_ne in G by exact N. exact (O _ _ _ G F).
    + exact (O _ _ _ G F).
    + exact (O _ _ _ (proj1 (cleanup_keys_shrinks now _ w) _ _ G) F).
    + exact (O _ _ _ G F).
Qed.

Lemma run_owned (es : list event) (w : World) :
  owned (jobs w) -> owned (jobs (world_of (run w es))).
Proof.
  revert w; induction es as [|e es IH]; intros w O; simpl; [exact O|].
  pose proof (step_owned w e O) as O'.
  destruct (step w e) as [w'|w']; simpl in *; [now apply IH | exact O'].
Qed.

Lemma reached_owned (d : Dir) (es : list event) :
  owned (jobs (world_of (run (initial d) es))).
Proof. apply run_owned. intros k job f G. discriminate. Qed.

(** Two records that name the same file are the same record. *)
Lemma owned_file_unique (js : Jobs) (k k' : string) (job job' : Job) (f : string) :
  owned js ->
  get k js = Some job -> get k' js = Some job' ->
  file job = Some f -> file job' = Some f -> k = k'.
Proof.
  intros O G G' F F'.
  destruct (O _ _ _ G F) as [U P]. destruct (O _ _ _ G' F') as [U' P'].
  apply (prefix_same_length k k' f P P').
  now rewrite (uuid_length _ U), (uuid_length _ U').
Qed.

Lemma backing_file_file (job : Job) (f : string) :
  backing_file job = Some f -> file job = Some f.
Proof.
  unfold backing_file. destruct (file job) as [g|]; [|discriminate].
  destruct (g =? ""); [discriminate|auto].
Qed.

(** Every callback but the sweep keeps every record, with the creation time
    it was given (a submission using an identifier not in the table). *)
Lemma step_keeps_records (w : World) (e : event) (k : string) (job : Job) :
  (forall now, e <> Sweep now) -> fresh w e ->
  get k (jobs w) = Some job ->
  exists job',
    get k (jobs (world_of (step w e))) = Some job'
    /\ createdAt job' = createdAt job.
Proof.
  intros NS F G.
  destruct (target e) as [u|] eqn:T.
  - rewrite (step_handler _ _ _ T). simpl.
    destruct (String.eqb_spec k u) as [->|N].
    + rewrite update_get_same, G. eexists; split; [reflexivity|].
      apply run_writes_createdAt.
    + rewrite update_get_other by exact N. eauto.
  - destruct e; try discriminate; simpl in *; eauto.
    + unfold create_job. destruct (String.eqb_spec k jobId) as [->|N].
      * congruence.
      * rewrite get_assign_ne by exact N. eauto.
    + now elim (NS now).
Qed.

Lemma expired_iff (now : Z) (job : Job) :
  expired now job = true <-> (now - createdAt job > 3600000)%Z.
Proof. unfold expired, JOB_CLEANUP_TIME. rewrite Z.gtb_gt. reflexivity. Qed.

(** C9, as the code has it.  For a record [job] under key [k] in any state
    the server can reach:
    no callback other than the sweep removes it or changes its creation
    time; a sweep removes it only if
    [now - createdAt] exceeds 3600000 ms, and then only after its file is no
    longer in the directory (it was unlinked just before, or was already
    missing, or none was recorded), and every sweep that runs to its end does
    remove it; if it has not expired, the sweep leaves the record and its
    file as they were. *)
Theorem sweep_removes_expired_records_after_their_files
  (d : Dir) (es : list event) (now : Z) (k : string) (job : Job) :
  get k (jobs (reached d es)) = Some job ->
  (forall e, (forall t, e <> Sweep t) -> fresh (reached d es) e ->
             exists job',
               get k (jobs (world_of (step (reached d es) e))) = Some job'
               /\ createdAt job' = createdAt job)
  /\ (expired now job = true <-> (now - createdAt job > 3600000)%Z)
  /\ (expired now job = false ->
      get k (jobs (world_of (cleanup now (reached d es)))) = Some job
      /\ forall f, file job = Some f ->
           get f (entries (disk (world_of (cleanup now (reached d es)))))
           = get f (entries (disk (reached d es))))
  /\ (get k (jobs (world_of (cleanup now (reached d es)))) = None ->
      expired now job = true
      /\ forall f, backing_file job = Some f ->
           existsSync (disk (world_of (cleanup now (reached d es)))) f = false)
  /\ (expired now job = true ->
      forall w', cleanup now (reached d es) = Returned w' ->
                 get k (jobs w') = None)
  /\ (exists new,
        log (world_of (cleanup now (reached d es)))
        = (log (reached d es) ++ new)%list
        /\ paired now (jobs (reached d es)) new)
  /\ iteration now k (reached d es) (world_of (cleanup_job now (reached d es) k)).
Proof.
  intros G.
  pose proof (reached_owned d es) as O. fold (reached d es) in O.
  set (w := reached d es) in *.
  split; [|split; [|split; [|split; [|split; [|split]]]]].
  - intros e NS F. now apply step_keeps_records.
  - apply expired_iff.
  - intros X. split.
    + now apply cleanup_keeps_young.
    + intros f F. apply cleanup_keeps_other_files.
      intros k' job' G' X' B'.
      pose proof (owned_file_unique _ _ _ _ _ _ O G G' F (backing_file_file _ _ B')) as E.
      subst k'. rewrite G in G'. injection G' as <-. congruence.
  - intros N. split.
    + destruct (expired now job) eqn:X; [reflexivity|].
      unfold cleanup in N. rewrite (cleanup_keeps_young _ _ _ _ _ G X) in N. discriminate.
    + intros f B. unfold existsSync, cleanup.
      now rewrite (cleanup_removes_file_first _ _ _ _ _ _ G B N).
  - intros X w' R. unfold cleanup in R.
    rewrite (cleanup_keys_jobs _ _ _ _ R k), G, X, (existsb_keys _ _ _ G). reflexivity.
  - apply cleanup_log_paired.
  - apply cleanup_job_iteration.
Qed.

Example sample_run_sweep :
  reached (mkDir true []) sample_run
  = mkWorld [ (uuid_text job_a, mkJob Completed 100 (Some file_a) None 0);
              (uuid_text job_b, mkJob Downloading 0 None None 3999000) ]
            (mkDir true [(file_a, Regular)]) []
  /\ cleanup 4000000 (reached (mkDir true []) sample_run)
     = Returned
         (mkWorld [ (uuid_text job_b, mkJob Downloading 0 None None 3999000) ]
                  (mkDir true [])
                  [Unlink file_a; DeleteRecord job_a]).
Proof. split; reflexivity. Qed.

Lemma sweep_removes_expired_records_after_their_files_witness :
  get job_a (jobs (reached (mkDir true []) sample_run))
  = Some (mkJob Completed 100 (Some file_a) None 0)
  /\ (forall w',
         cleanup 4000000 (reached (mkDir true []) sample_run) = Returned w' ->
         get job_a (jobs w') = None).
Proof.
  split; [reflexivity|].
  exact (proj1 (proj2 (proj2 (proj2 (proj2
    (sweep_removes_expired_records_after_their_files
       (mkDir true []) sample_run 4000000 job_a
       (mkJob Completed 100 (Some file_a) None 0) eq_refl))))) eq_refl).
Defined.

(** C9 fails where [fs.unlinkSync] throws: the sweep ends there, and the
    expired records, the one whose file it was and the ones after it, stay
    in the table with their files. *)
Lemma expired_records_survive_failed_unlink :
  reached (mkDir true []) stuck_run = stuck
  /\ get job_a (jobs stuck) = Some (mkJob Completed 100 (Some file_a) None 0)
  /\ (4000000 - 0 > 3600000)%Z
  /\ existsSync (disk stuck) file_a = true
  /\ get job_a (jobs (world_of (cleanup 4000000 stuck)))
     = Some (mkJob Completed 100 (Some file_a) None 0)
  /\ existsSync (disk (world_of (cleanup 4000000 stuck))) file_a = true
  /\ get job_b (jobs (world_of (cleanup 4000000 stuck)))
     = Some (mkJob Completed 100 (Some file_b) None 1000)
  /\ existsSync (disk (world_of (cleanup 4000000 stuck))) file_b = true.
Proof. repeat split; reflexivity. Qed.

(** ** Completed jobs name their file *)

(** In every state the server can reach, a completed record holds the name
    of a file, and that name starts with the job identifier; so the
    reference returned by the progress query is never [.../downloads/null]. *)
Lemma step_completed_has_file (w : World) (e : event) :
  (forall k job, get k (jobs w) = Some job -> status job = Completed ->
                 truthy (file job) = true) ->
  forall k job, get k (jobs (world_of (step w e))) = Some job ->
                status job = Completed -> truthy (file job) = true.
Proof.
  intros Inv k job' G C.
  destruct e; simpl in G.
  - unfold create_job in G. destruct (String.eqb_spec k jobId) as [->|N].
    + rewrite get_assign_eq in G. injection G as <-. discriminate.
    + rewrite get_assign_ne in G by exact N. exact (Inv _ _ G C).
  - destruct (String.eqb_spec k jobId) as [->|N].
    + destruct (get jobId (jobs w)) as [job|] eqn:G0.
      * rewrite (on_stdout_get _ _ _ line _ G0) in G. injection G as <-.
        simpl in *. exact (Inv _ _ G0 C).
      * unfold on_stdout in G. rewrite update_absent in G by exact G0. congruence.
    + unfold on_stdout in G. rewrite update_get_other in G by exact N.
      exact (Inv _ _ G C).
  - destruct (String.eqb_spec k jobId) as [->|N].
    + destruct (get jobId (jobs w)) as [job|] eqn:G0.
      * rewrite (on_error_get _ _ _ G0) in G. injection G as <-. discriminate.
      * unfold on_error in G. rewrite update_absent in G by exact G0. congruence.
    + unfold on_error in G. rewrite update_get_other in G by exact N.
      exact (Inv _ _ G C).
  - destruct (String.eqb_spec k jobId) as [->|N].
    + destruct (get jobId (jobs w)) as [job|] eqn:G0.
      * destruct (nonzero code) eqn:Z.
        -- rewrite (proj2 (on_close_nonzero _ _ _ _ G0 Z)) in G.
           injection G as <-. discriminate.
        -- destruct code as [c|]; [|discriminate]. simpl in Z.
           apply negb_false_iff, Z.eqb_eq in Z. subst c.
           rewrite (on_close_zero _ _ _ G0) in G. simpl in G.
           rewrite G0 in G. injection G as <-. exact (Inv _ _ G0 C).
      * rewrite (on_close_absent _ _ _ G0) in G. simpl in G. congruence.
    + unfold on_close in G. destruct (lookup (jobs w) jobId);
        try (destruct (nonzero code)); simpl in G;
        try rewrite update_get_other in G by exact N;
        exact (Inv _ _ G C).
  - destruct (String.eqb_spec k jobId) as [->|N].
    + destruct (get jobId (jobs w)) as [job|] eqn:G0.
      * rewrite (on_timeout_get _ (disk w) _ _ G0) in G. injection G as <-.
        destruct (readdirSync (disk w)) as [files|]; [|discriminate].
        destruct (find_file files jobId) as [f|] eqn:F; [|discriminate].
        exact (startsWith_uuid_nonempty _ _ (proj2 (find_file_some _ _ _ F))).
      * unfold on_timeout in G. rewrite update_absent in G by exact G0. congruence.
    + unfold on_timeout in G. rewrite update_get_other in G by exact N.
      exact (Inv _ _ G C).
  - exact (Inv _ _ G C).
  - exact (Inv _ _ (proj1 (cleanup_keys_shrinks now _ w) _ _ G) C).
  - exact (Inv _ _ G C).
Qed.

Lemma run_completed_has_file (es : list event) (w : World) :
  (forall k job, get k (jobs w) = Some job -> status job = Completed ->
                 truthy (file job) = true) ->
  forall k job, get k (jobs (world_of (run w es))) = Some job ->
                status job = Completed -> truthy (file job) = true.
Proof.
  revert w; induction es as [|e es IH]; intros w Inv; simpl; [exact Inv|].
  pose proof (step_completed_has_file w e Inv) as Inv'.
  destruct (step w e) as [w'|w']; simpl in *; [now apply IH | exact Inv'].
Qed.

Lemma reached_completed_has_file (d : Dir) (es : list event) (k : string) (job : Job) :
  get k (jobs (reached d es)) = Some job -> status job = Completed ->
  exists f, file job = Some f /\ f <> "" /\ startsWith f k = true.
Proof.
  intros G C.
  assert (T : truthy (file job) = true).
  { apply (run_completed_has_file es (initial d)) with (k := k); auto.
    simpl. discriminate. }
  destruct (file job) as [f|] eqn:F; [|discriminate].
  exists f. split; [reflexivity|]. split.
  - simpl in T. intros ->. discriminate.
  - exact (proj2 (reached_owned d es _ _ _ G F)).
Qed.

(** * Further properties *)

(** ** Callbacks, record by record *)

Lemma with_jobs_same (w : World) : with_jobs w (jobs w) = w.
Proof. now destruct w. Qed.

Lemma writes_of_handler (w : World) (e : event) (u : uuid) :
  target e = Some u -> handler_writes u (writes_of w e).
Proof.
  destruct e; simpl; try discriminate; intros T; injection T as ->.
  - unfold stdout_writes. destruct (parse line) eqn:P; [|constructor].
    now apply hw_progress with (line := line).
  - constructor.
  - destruct (nonzero code); constructor.
  - unfold timeout_writes. destruct (readdirSync (disk w)) as [files|]; [|constructor].
    destruct (find_file files u) as [f|] eqn:F.
    + apply find_file_some in F as [_ P].
      pose proof (startsWith_uuid_nonempty _ _ P) as T. rewrite T. simpl.
      apply hw_found; [exact P|]. intros ->. discriminate.
    + simpl. constructor.
Qed.

(** A record found after a callback is the record found before it, or that
    record after the writes of its own callback, or a new record. *)
Lemma step_record (w : World) (e : event) (k : string) (job' : Job) :
  get k (jobs (world_of (step w e))) = Some job' ->
  get k (jobs w) = Some job'
  \/ (exists (u : uuid) job,
        target e = Some u /\ k = u /\ get k (jobs w) = Some job
        /\ job' = run_writes job (writes_of w e))
  \/ (exists (u : uuid) now, e = Submit u now /\ k = u /\ job' = new_job now).
Proof.
  intros G.
  destruct (target e) as [u|] eqn:T.
  - rewrite (step_handler _ _ _ T) in G. simpl in G.
    destruct (String.eqb_spec k u) as [->|N].
    + rewrite update_get_same in G.
      destruct (get u (jobs w)) as [job|] eqn:G0; [|discriminate].
      injection G as <-. right; left. exists u, job. auto.
    + rewrite update_get_other in G by exact N. now left.
  - destruct e; try discriminate; simpl in *.
    + unfold create_job in G.
      destruct (String.eqb_spec k jobId) as [->|N].
      * rewrite get_assign_eq in G. injection G as <-.
        right; right. exists jobId, now. auto.
      * rewrite get_assign_ne in G by exact N. now left.
    + now left.
    + left. exact (proj1 (cleanup_keys_shrinks now _ w) _ _ G).
    + now left.
Qed.

(** A property of records that new records have and that the writes of a
    callback keep holds of every record the server can reach. *)
Lemma reached_invariant (P : string -> Job -> Prop) :
  (forall (u : uuid) now, P u (new_job now)) ->
  (forall (u : uuid) job ws,
      handler_writes u ws -> P u job -> P u (run_writes job ws)) ->
  forall d es k job, get k (jobs (reached d es)) = Some job -> P k job.
Proof.
  intros New Keep d es. unfold reached.
  assert (H : forall w,
    (forall k job, get k (jobs w) = Some job -> P k job) ->
    forall k job, get k (jobs (world_of (run w es))) = Some job -> P k job).
  { induction es as [|e es IH]; intros w Inv; simpl; [exact Inv|].
    assert (Inv' : forall k job,
               get k (jobs (world_of (step w e))) = Some job -> P k job).
    { intros k job' G.
      destruct (step_record _ _ _ _ G)
        as [G0|[(u & job & T & -> & G0 & ->)|(u & now & _ & -> & ->)]].
      - exact (Inv _ _ G0).
      - apply Keep; [now apply writes_of_handler | exact (Inv _ _ G0)].
      - apply New. }
    destruct (step w e) as [w'|w']; simpl in *; [now apply IH | exact Inv']. }
  apply H. simpl. discriminate.
Qed.

(** X1. Once the record of a job has been removed, none of the callbacks of
    its yt-dlp process brings it back or changes anything: a stdout line, a
    launch error, an exit with any code and the file-discovery timer leave
    the table, the directory and the log as they were, send nothing to a
    client, and an exit with code 0 arms no timer. *)
Theorem callbacks_of_a_removed_job_change_nothing
  (w : World) (e : event) (jobId : uuid) :
  target e = Some jobId ->
  get jobId (jobs w) = None ->
  step w e = Returned w
  /\ respond w e = None
  /\ (forall code, on_close (jobs w) jobId code = (jobs w, None)).
Proof.
  intros T G. split; [|split].
  - rewrite (step_handler _ _ _ T), update_absent by exact G.
    now rewrite with_jobs_same.
  - destruct e; try discriminate; reflexivity.
  - intros code. now apply on_close_absent.
Qed.

Lemma callbacks_of_a_removed_job_change_nothing_witness :
  get job_a (jobs (mkWorld [] (mkDir true [(file_a, Regular)]) [])) = None
  /\ step (mkWorld [] (mkDir true [(file_a, Regular)]) []) (Timeout job_a)
     = Returned (mkWorld [] (mkDir true [(file_a, Regular)]) []).
Proof.
  split; [reflexivity|].
  exact (proj1
    (callbacks_of_a_removed_job_change_nothing
       (mkWorld [] (mkDir true [(file_a, Regular)]) []) (Timeout job_a) job_a
       eq_refl eq_refl)).
Defined.

(** X2. A callback of the yt-dlp process of one job never touches another
    job: every record under a different key, the order of the keys, the
    download directory and the log are the same after it as before. *)
Theorem callbacks_touch_only_their_own_job
  (w : World) (e : event) (u : uuid) (k : string) :
  target e = Some u ->
  k <> u ->
  get k (jobs (world_of (step w e))) = get k (jobs w)
  /\ keys (jobs (world_of (step w e))) = keys (jobs w)
  /\ disk (world_of (step w e)) = disk w
  /\ log (world_of (step w e)) = log w.
Proof.
  intros T N. rewrite (step_handler _ _ _ T). simpl.
  repeat split.
  - now apply update_get_other.
  - apply update_keys.
Qed.

Lemma callbacks_touch_only_their_own_job_witness :
  (uuid_text job_b <> uuid_text job_a)
  /\ get job_b (jobs (world_of (step mixed (ProcessError job_a))))
     = get job_b (jobs mixed).
Proof.
  split; [discriminate|].
  exact (proj1
    (callbacks_touch_only_their_own_job mixed (ProcessError job_a) job_a job_b
       eq_refl ltac:(discriminate))).
Defined.

(** ** Invariants of the records *)

Lemma handler_writes_error_message (u : uuid) (ws : list write) (job : Job) :
  handler_writes u ws ->
  (status job = Error -> exists m, error job = Some m /\ In m failure_messages) ->
  status (run_writes job ws) = Error ->
  exists m, error (run_writes job ws) = Some m /\ In m failure_messages.
Proof.
  unfold failure_messages.
  intros H; destruct H; simpl; intros Inv S; auto;
    try discriminate; eexists; (split; [reflexivity|]); simpl; auto.
Qed.

Lemma reached_error_has_message (d : Dir) (es : list event) (k : string) (job : Job) :
  get k (jobs (reached d es)) = Some job -> status job = Error ->
  exists m, error job = Some m /\ In m failure_messages.
Proof.
  intros G.
  apply (reached_invariant
           (fun _ job => status job = Error ->
                         exists m, error job = Some m /\ In m failure_messages))
    with (d := d) (es := es) (k := k); [discriminate| |exact G].
  intros u j ws. apply handler_writes_error_message.
Qed.

(** X3. In every state the server can reach, a record with status error
    carries one of the four messages the callbacks store, and the progress
    query answers with that message: the fallback "Unknown error" is never
    sent for a job. *)
Theorem error_status_carries_its_message
  (d : Dir) (es : list event) (k : string) (job : Job) :
  get k (jobs (reached d es)) = Some job ->
  status job = Error ->
  exists m,
    error job = Some m
    /\ In m failure_messages
    /\ Res.error (get_progress (jobs (reached d es)) k) = Some m.
Proof.
  intros G S.
  destruct (reached_error_has_message d es k job G S) as (m & E & I).
  exists m. repeat split; auto.
  unfold get_progress, lookup. rewrite G, S, E. simpl.
  unfold failure_messages in I. simpl in I.
  repeat (destruct I as [<-|I]; [reflexivity|]). destruct I.
Qed.

Lemma error_status_carries_its_message_witness :
  exists m,
    In m failure_messages
    /\ Res.error
         (get_progress
            (jobs (reached (mkDir true []) [Submit job_a 0; Close job_a (Some 2%Z)]))
            job_a)
       = Some m.
Proof.
  destruct (error_status_carries_its_message (mkDir true [])
              [Submit job_a 0; Close job_a (Some 2%Z)] job_a
              (mkJob Error 0 None (Some "Download failed") 0) eq_refl eq_refl)
    as (m & _ & I & R).
  exists m. split; [exact I | exact R].
Defined.

(** X4. In every state the server can reach, a completed record names a
    file whose name starts with the job identifier, and the progress query
    answers 200 with progress 100 and the URL of that file under
    [/downloads/]; it never refers to [/downloads/null]. *)
Theorem completed_job_is_served_its_file
  (d : Dir) (es : list event) (k : string) (job : Job) :
  get k (jobs (reached d es)) = Some job ->
  status job = Completed ->
  exists f,
    file job = Some f /\ f <> "" /\ startsWith f k = true
    /\ get_progress (jobs (reached d es)) k
       = Res.mk 200 true (Some Completed) (Some 100)
                (Some ("http://localhost:3000/downloads/" ++ f)) None.
Proof.
  intros G S.
  destruct (reached_completed_has_file d es k job G S) as (f & F & N & P).
  exists f. repeat split; auto.
  unfold get_progress, lookup, fileUrl. now rewrite G, S, F.
Qed.

Lemma completed_job_is_served_its_file_witness :
  exists f,
    startsWith f job_a = true
    /\ get_progress (jobs (reached (mkDir true []) sample_run)) job_a
       = Res.mk 200 true (Some Completed) (Some 100)
                (Some ("http://localhost:3000/downloads/" ++ f)) None.
Proof.
  destruct (completed_job_is_served_its_file (mkDir true []) sample_run job_a
              (mkJob Completed 100 (Some file_a) None 0) eq_refl eq_refl)
    as (f & _ & _ & P & R).
  exists f. split; [exact P | exact R].
Defined.

Lemma digit_val_nonneg (c : ascii) : is_digit c = true -> (0 <= digit_val c)%Z.
Proof.
  unfold is_digit, digit_val. intros H.
  apply andb_true_iff in H as [H _]. apply Nat.leb_le in H. lia.
Qed.

Lemma digits_val_nonneg (s : string) (acc : Z) :
  all_digits s = true -> (0 <= acc)%Z -> (0 <= digits_val acc s)%Z.
Proof.
  revert acc; induction s as [|c s IH]; intros acc D A;
    cbn [digits_val all_digits] in *; [exact A|].
  apply andb_true_iff in D as [C D].
  apply IH; [exact D|]. pose proof (digit_val_nonneg c C). lia.
Qed.

Lemma all_digits_app (a b : string) :
  all_digits a = true -> all_digits b = true -> all_digits (a ++ b) = true.
Proof.
  induction a as [|c a IH]; simpl; intros A B; [exact B|].
  apply andb_true_iff in A as [C A]. now rewrite C, IH.
Qed.

Lemma parse_nonneg (line : string) (p : Q) : parse line = Some p -> 0 <= p.
Proof.
  intros H. apply parse_some in H as (pre & d1 & d2 & post & O & _ & ->).
  destruct O as (_ & _ & D1 & _ & D2).
  unfold decimal. rewrite Qred_correct. unfold Qle; simpl.
  rewrite Z.mul_1_r. apply digits_val_nonneg; [now apply all_digits_app | lia].
Qed.

Lemma handler_writes_progress (u : uuid) (ws : list write) (job : Job) :
  handler_writes u ws -> 0 <= progress job -> 0 <= progress (run_writes job ws).
Proof.
  intros H; destruct H; simpl; intros P; auto; try (unfold Qle; simpl; lia).
  now apply parse_nonneg with (line := line).
Qed.

(** X5. The progress pattern has no sign, so a parsed percentage is never
    negative, and in every state the server can reach the progress of every
    record, and the progress the query reports for it, is at least 0. *)
Theorem progress_is_never_negative :
  (forall line p, parse line = Some p -> 0 <= p)
  /\ (forall d es k job,
        get k (jobs (reached d es)) = Some job -> 0 <= progress job)
  /\ (forall d es k p,
        Res.progress (get_progress (jobs (reached d es)) k) = Some p -> 0 <= p).
Proof.
  assert (R : forall d es k job,
             get k (jobs (reached d es)) = Some job -> 0 <= progress job).
  { apply (reached_invariant (fun _ job => 0 <= progress job)).
    - intros. unfold Qle; simpl; lia.
    - intros u job ws. apply handler_writes_progress. }
  split; [exact parse_nonneg|]. split; [exact R|].
  intros d es k p. unfold get_progress, lookup.
  destruct (get k (jobs (reached d es))) as [job|] eqn:G.
  - pose proof (R _ _ _ _ G) as P.
    destruct (status job); simpl; intros H; injection H as <-; auto;
      unfold Qle; simpl; lia.
  - destruct (existsb _ _); discriminate.
Qed.

(** ** Sweeps, once more *)

Lemma cleanup_keys_nothing_expired (now : Z) (ks : list string) (w : World) :
  (forall k job, get k (jobs w) = Some job -> expired now job = false) ->
  cleanup_keys now ks w = Returned w.
Proof.
  intros H. induction ks as [|k ks IH]; simpl; [reflexivity|].
  rewrite cleanup_job_cases.
  destruct (get k (jobs w)) as [job|] eqn:G; [|exact IH].
  now rewrite (H _ _ G).
Qed.

(** X6. A sweep that has run to its end leaves nothing for a second sweep
    at the same time: run again on the result, it returns that result
    unchanged, without touching the table, the directory or the log. *)
Theorem cleanup_twice_is_cleanup_once (now : Z) (w w' : World) :
  cleanup now w = Returned w' -> cleanup now w' = Returned w'.
Proof.
  intros R. apply cleanup_keys_nothing_expired.
  intros k job G. unfold cleanup in R.
  rewrite (cleanup_keys_jobs _ _ _ _ R k) in G.
  destruct (get k (jobs w)) as [job0|] eqn:G0; [|discriminate].
  rewrite (existsb_keys _ _ _ G0) in G. simpl in G.
  destruct (expired now job0) eqn:X; [discriminate|]. now injection G as <-.
Qed.

Lemma cleanup_twice_is_cleanup_once_witness :
  cleanup 4000000
    (mkWorld [ (uuid_text job_b, mkJob Downloading 0 None None 3999000) ]
             (mkDir true []) [Unlink file_a; DeleteRecord job_a])
  = Returned
      (mkWorld [ (uuid_text job_b, mkJob Downloading 0 None None 3999000) ]
               (mkDir true []) [Unlink file_a; DeleteRecord job_a]).
Proof.
  exact (cleanup_twice_is_cleanup_once 4000000
           (reached (mkDir true []) sample_run) _ (proj2 sample_run_sweep)).
Defined.

(** ** The job count of the health check *)

Lemma keys_assign_new {V : Type} (t : list (string * V)) (k : string) (v : V) :
  get k t = None -> keys (assign k v t) = (keys t ++ [k])%list.
Proof.
  unfold keys. induction t as [|[k' v'] t IH]; simpl; [reflexivity|].
  destruct (k =? k'); [discriminate|]. intros H. simpl. now rewrite IH.
Qed.

Lemma keys_delete_length {V : Type} (t : list (string * V)) (k : string) :
  (List.length (keys (delete k t)) <= List.length (keys t))%nat.
Proof.
  unfold keys. induction t as [|[k' v'] t IH]; simpl; [lia|].
  destruct (k =? k'); simpl; lia.
Qed.

(** X7. The number of jobs reported by the health check changes only with
    submissions and sweeps: a submission under an unused identifier adds
    one, a sweep never adds any, and no stdout line, launch error, exit,
    file-discovery timer, progress query or change of the directory alters
    it. *)
Theorem health_count_changes_only_by_submit_and_sweep (w : World) (e : event) :
  match e with
  | Submit u _ =>
      health (jobs (world_of (step w e))) =
      match get u (jobs w) with
      | Some _ => health (jobs w)
      | None => S (health (jobs w))
      end
  | Sweep _ => (health (jobs (world_of (step w e))) <= health (jobs w))%nat
  | _ => health (jobs (world_of (step w e))) = health (jobs w)
  end.
Proof.
  unfold health.
  destruct e; simpl;
    try (unfold on_stdout, on_error, on_timeout; now rewrite update_keys);
    try reflexivity.
  - unfold create_job. destruct (get jobId (jobs w)) as [j|] eqn:G.
    + now rewrite (keys_assign_own _ _ _ _ G).
    + rewrite (keys_assign_new _ _ _ G), length_app. simpl. lia.
  - unfold on_close. destruct (lookup (jobs w) jobId);
      try (destruct (nonzero code)); simpl; try rewrite update_keys; reflexivity.
  - apply (cleanup_keys_invariant
             (fun w1 => (List.length (keys (jobs w1)) <= List.length (keys (jobs w)))%nat));
      [|lia].
    intros w1 k H.
    destruct (cleanup_job_iteration now w1 k) as [->|job _ _ _ ->|job f _ _ _ _ ->];
      [exact H| |]; simpl; pose proof (keys_delete_length (jobs w1) k); lia.
Qed.

(** ** Several reports in one chunk *)

Lemma string_app_assoc (a b c : string) : (a ++ b) ++ c = a ++ b ++ c.
Proof. induction a as [|x a IH]; simpl; [reflexivity | now rewrite IH]. Qed.

Lemma has_char_app (c : ascii) (a b : string) :
  has_char c (a ++ b) = has_char c a || has_char c b.
Proof.
  induction a as [|x a IH]; simpl; [reflexivity|].
  now rewrite IH, orb_assoc.
Qed.

Lemma digits_have_no_percent (d : string) :
  all_digits d = true -> has_char "%" d = false.
Proof.
  induction d as [|c d IH]; simpl; [reflexivity|]. intros H.
  apply andb_true_iff in H as [C D]. rewrite (IH D), orb_false_r.
  destruct (Ascii.eqb_spec c "%"%char) as [->|]; [discriminate C | reflexivity].
Qed.

Lemma occurs_has_percent (line pre d1 d2 post : string) :
  occurs line pre d1 d2 post -> has_char "%" line = true.
Proof.
  intros (-> & _). rewrite !has_char_app. simpl. now rewrite !orb_true_r.
Qed.

Lemma string_app_split (a b x y : string) :
  a ++ b = x ++ y ->
  (exists t, x = a ++ t) \/ (exists t, a = x ++ t /\ y = t ++ b).
Proof.
  revert x; induction a as [|c a IH]; intros x H; simpl in *.
  - left. now exists x.
  - destruct x as [|c' x]; simpl in *.
    + right. exists (String c a). split; [reflexivity | now rewrite <- H].
    + injection H as -> H. destruct (IH _ H) as [(t & ->)|(t & -> & ->)].
      * left. now exists t.
      * right. now exists t.
Qed.

(** An attempt that fails on [a] but succeeds on [a ++ b] runs over the end
    of [a], so [a] holds digits and one point only. *)
Lemma match_here_overrun (a b : string) (m : string * string) :
  match_here a = None -> match_here (a ++ b) = Some m ->
  has_char "%" a = false.
Proof.
  intros N S. destruct m as [e1 e2].
  destruct (match_here_sound _ _ _ S) as (post & E & N1 & D1 & N2 & D2).
  simpl in E.
  assert (X : has_char "%" (e1 ++ "." ++ e2) = false).
  { rewrite !has_char_app. simpl.
    now rewrite (digits_have_no_percent _ D1), (digits_have_no_percent _ D2). }
  assert (E' : a ++ b = (e1 ++ "." ++ e2) ++ ("%" ++ post)).
  { rewrite E. now rewrite !string_app_assoc. }
  destruct (string_app_split _ _ _ _ E') as [(t & Ht)|(t & Ha & Hy)].
  - rewrite Ht, has_char_app in X. now apply orb_false_iff in X as [X _].
  - destruct t as [|c t].
    + rewrite append_nil_r in Ha. now subst a.
    + simpl in Hy. injection Hy as <- _.
      assert (O : occurs a "" e1 e2 t).
      { repeat split; auto. rewrite Ha. simpl. now rewrite !string_app_assoc. }
      apply match_here_complete in O. congruence.
Qed.

Lemma regex_match_app (a b : string) (m : string * string) :
  regex_match a = Some m -> regex_match (a ++ b) = Some m.
Proof.
  induction a as [|c a IH]; [discriminate|].
  cbn [regex_match append].
  change (String c (a ++ b)) with (String c a ++ b).
  destruct (match_here (String c a)) as [m0|] eqn:H.
  - intros E; injection E as ->. destruct m as [d1 d2].
    destruct (match_here_sound _ _ _ H) as (post & E & R).
    assert (O : occurs (String c a ++ b) "" d1 d2 (post ++ b)).
    { split; [|exact R]. rewrite E. simpl.
      repeat (rewrite string_app_assoc; simpl). reflexivity. }
    now rewrite (match_here_complete _ _ _ _ O).
  - intros R. destruct (match_here (String c a ++ b)) as [m1|] eqn:H1.
    + pose proof (match_here_overrun _ _ _ H H1) as X.
      destruct m as [d1 d2].
      destruct (regex_match_sound _ _ _ R) as (pre & post & O & _).
      apply occurs_has_percent in O. simpl in X.
      apply orb_false_iff in X as [_ X]. congruence.
    + now apply IH.
Qed.

(** X8. Only the first progress report of a stdout chunk counts: when a
    text contains a report, appending anything to it, further reports
    included, does not change what the parser returns. *)
Theorem first_report_of_a_chunk_wins (a b : string) (p : Q) :
  parse a = Some p -> parse (a ++ b) = Some p.
Proof.
  unfold parse. destruct (regex_match a) as [m|] eqn:R; [|discriminate].
  now rewrite (regex_match_app _ b _ R).
Qed.

Lemma first_report_of_a_chunk_wins_witness :
  parse ("[download]  10.0% of 3MiB" ++ "[download]  20.0% of 3MiB") = Some 10.
Proof.
  exact (first_report_of_a_chunk_wins
           "[download]  10.0% of 3MiB" "[download]  20.0% of 3MiB" 10 eq_refl).
Defined.

(** ** Submitting a download *)

Lemma includes_app_r (a b p : string) :
  includes b p = true -> includes (a ++ b) p = true.
Proof.
  intros H. induction a as [|c a IH]; simpl; [exact H|].
  rewrite IH. apply orb_true_r.
Qed.

(** X9. The selector a video download passes to [-f] is the requested one
    when that is "best" or contains a [+], and otherwise the requested one
    followed by "+bestaudio/best", whether it is numeric or not; so it is
    always "best" or a merge expression, and building it from its own result
    changes nothing. *)
Theorem formatString_is_best_or_a_merge (selector : string) :
  formatString selector =
    (if (selector =? "best") || includes selector "+" then selector
     else selector ++ "+bestaudio/best")
  /\ (formatString selector = "best"
      \/ includes (formatString selector) "+" = true)
  /\ formatString (formatString selector) = formatString selector.
Proof.
  assert (E : formatString selector =
              (if (selector =? "best") || includes selector "+" then selector
               else selector ++ "+bestaudio/best")).
  { unfold formatString. destruct (_ || _); [reflexivity|].
    now destruct (is_numeric selector). }
  assert (M : formatString selector = "best"
              \/ includes (formatString selector) "+" = true).
  { rewrite E. destruct (selector =? "best") eqn:B; simpl.
    - left. now apply String.eqb_eq.
    - right. destruct (includes selector "+") eqn:I; [exact I|].
      now apply includes_app_r. }
  split; [exact E|]. split; [exact M|].
  unfold formatString at 1.
  destruct M as [->|I]; [reflexivity|]. now rewrite I, orb_true_r.
Qed.

(** ** Output names and file discovery *)

Lemma prefix_app (a t : string) : String.prefix a (a ++ t) = true.
Proof.
  induction a as [|c a IH]; simpl; [now destruct t|].
  destruct (ascii_dec c c) as [_|N]; [exact IH | now elim N].
Qed.

Lemma output_name_owner (a u : uuid) (ext : string) :
  startsWith (output_name u ext) a = true -> uuid_text a = uuid_text u.
Proof.
  unfold startsWith, output_name. intros P.
  apply (prefix_same_length a u _ P (prefix_app u _)).
  now rewrite (uuid_length _ (uuid_wf a)), (uuid_length _ (uuid_wf u)).
Qed.

(** X10. In a download directory where every file carries the name of the
    output template of some job (the job identifier, a point, and what
    yt-dlp put for the extension), the file-discovery scan for a job returns
    only a file of that job, never one of another job, and it does return
    one whenever a file of that job is listed. *)
Theorem discovery_finds_only_the_jobs_own_output
  (files : list string) (a : uuid) :
  (forall g, In g files -> exists (u : uuid) ext, g = output_name u ext) ->
  (forall f, find_file files a = Some f -> exists ext, f = output_name a ext)
  /\ (forall ext, In (output_name a ext) files ->
                  exists ext', find_file files a = Some (output_name a ext')).
Proof.
  intros H.
  assert (A : forall f, find_file files a = Some f -> exists ext, f = output_name a ext).
  { intros f F. apply find_file_some in F as [I P].
    destruct (H _ I) as (u & ext & ->). exists ext.
    unfold output_name. now rewrite (output_name_owner _ _ _ P). }
  split; [exact A|].
  intros ext I. destruct (find_file files a) as [f|] eqn:F.
  - destruct (A f eq_refl) as [ext' ->]. now exists ext'.
  - pose proof (find_file_none _ _ F _ I) as N.
    unfold startsWith, output_name in N. now rewrite prefix_app in N.
Qed.

Lemma two_outputs_are_template_named (g : string) :
  In g [output_name job_b "mp3"; output_name job_a "mp4"] ->
  exists (u : uuid) ext, g = output_name u ext.
Proof.
  intros [<-|[<-|[]]]; [now exists job_b, "mp3" | now exists job_a, "mp4"].
Qed.

Lemma discovery_finds_only_the_jobs_own_output_witness :
  exists ext,
    find_file [output_name job_b "mp3"; output_name job_a "mp4"] job_a
    = Some (output_name job_a ext).
Proof.
  exact (proj2
    (discovery_finds_only_the_jobs_own_output
       [output_name job_b "mp3"; output_name job_a "mp4"] job_a
       two_outputs_are_template_named)
    "mp4" (or_intror (or_introl eq_refl))).
Defined.

Section DownloadFacts.
Variable isValidUrl : jsval -> bool.
Variable outputPath : string -> string.
Variable spawn_throws : list jsval -> bool.

(** The three ways the handler can end. *)
Lemma post_download_cases
  (js : Jobs) (jobId : uuid) (now : Z) (b : Body.t) :
  match post_download isValidUrl outputPath spawn_throws js jobId now b with
  | (js', BadRequest _) =>
      js' = js
      /\ (js_truthy (Body.url b) = false
          \/ js_truthy (Body.format_id b) = false
          \/ isValidUrl (Body.url b) = false
          \/ (js_truthy (Body.type b) = true
              /\ Body.type b <> JStr "video" /\ Body.type b <> JStr "audio"))
  | (js', Started job_id args) =>
      job_id = uuid_text jobId
      /\ js' = create_job js jobId now
      /\ get jobId js' = Some (mkJob Downloading 0 None None now)
      /\ accepted isValidUrl b
      /\ download_args b (outputPath (template jobId)) = Some args
      /\ spawn_throws args = false
  | (js', Thrown) =>
      js' = create_job js jobId now
      /\ get jobId js' = Some (mkJob Downloading 0 None None now)
      /\ accepted isValidUrl b
      /\ match download_args b (outputPath (template jobId)) with
         | Some args => spawn_throws args = true
         | None =>
             Body.type b <> JStr "audio"
             /\ video_selector (Body.format_id b) = None
         end
  end.
Proof.
  unfold post_download, accepted.
  destruct (js_truthy (Body.url b)) eqn:U; simpl; [|auto].
  destruct (js_truthy (Body.format_id b)) eqn:F; simpl; [|auto].
  destruct (isValidUrl (Body.url b)) eqn:V; simpl; [|auto 6].
  assert (Ty : js_truthy (Body.type b)
               && negb (is_str (Body.type b) "video"
                        || (is_str (Body.type b) "audio" || false)) = false ->
               js_truthy (Body.type b) = false
               \/ Body.type b = JStr "video" \/ Body.type b = JStr "audio").
  { destruct (Body.type b) as [| |x|q|s|l|m]; simpl; auto.
    - destruct x; simpl; auto.
    - destruct (Qeq_bool q 0); simpl; auto.
    - destruct (String.eqb_spec s "video") as [->|]; simpl; auto.
      destruct (String.eqb_spec s "audio") as [->|]; simpl; auto.
      rewrite andb_true_r; auto. }
  destruct (js_truthy (Body.type b)
            && negb (is_str (Body.type b) "video"
                     || (is_str (Body.type b) "audio" || false))) eqn:T.
  - split; [reflexivity|]. do 3 right.
    apply andb_true_iff in T as [T1 T2]. split; [exact T1|].
    apply negb_true_iff, orb_false_iff in T2 as [T2 T3].
    split; intros E; rewrite E in *; discriminate.
  - specialize (Ty eq_refl). cbv zeta.
    destruct (download_args b (outputPath (template jobId))) as [args|] eqn:A.
    + destruct (spawn_throws args) eqn:S;
        repeat split; auto; try apply get_assign_eq.
    + repeat split; auto; try apply get_assign_eq.
      * intros E. unfold download_args in A. rewrite E in A. discriminate.
      * unfold download_args in A.
        destruct (is_str (Body.type b) "audio"); [discriminate|].
        now destruct (video_selector (Body.format_id b)).
Qed.


End DownloadFacts.

(** Requests that pass validation and end in an exception, the record left
    behind: a video request with the number 137 as [format_id], and one
    whose URL holds a NUL character, which [spawn] refuses.  The same number
    in an audio request is handed to [yt-dlp] as it is. *)
Example requests_that_throw_leave_their_record :
  let valid := fun _ : jsval => true in
  let path := fun name : string => ("downloads/" ++ name)%string in
  let nul := fun args : list jsval =>
               existsb (fun v => match v with
                                 | JStr s => has_char "000"%char s
                                 | _ => false
                                 end) args in
  let url := JStr "https://example.org/v" in
  post_download valid path nul [] job_a 5
    (Body.mk url (JNum 137) JUndefined JUndefined)
  = (create_job [] job_a 5, Thrown)
  /\ post_download valid path nul [] job_a 5
       (Body.mk (JStr (String "000"%char "https://example.org/v")) (JStr "best")
                JUndefined JUndefined)
     = (create_job [] job_a 5, Thrown)
  /\ post_download valid path nul [] job_a 5
       (Body.mk url (JArr [JStr "137"]) (JStr "video") JUndefined)
     = (create_job [] job_a 5, Thrown)
  /\ post_download valid path nul [] job_a 5
       (Body.mk url (JNum 137) (JStr "audio") JUndefined)
     = (create_job [] job_a 5,
        Started job_a
          [ JStr "-f"; JNum 137; JStr "-x"; JStr "--audio-format"; JStr "mp3";
            JStr "--audio-quality"; JStr "0";
            JStr "-o"; JStr (path (template job_a));
            JStr "--newline"; JStr "--no-warnings"; url ])
  /\ post_download valid path nul [] job_a 5
       (Body.mk url (JStr "137") JUndefined JUndefined)
     = (create_job [] job_a 5,
        Started job_a
          [ JStr "-f"; JStr "137+bestaudio/best";
            JStr "--merge-output-format"; JStr "mp4";
            JStr "-o"; JStr (path (template job_a));
            JStr "--newline"; JStr "--no-warnings"; url ])
  /\ post_download valid path nul [] job_a 5
       (Body.mk url (JNum 0) JUndefined JUndefined)
     = ([], BadRequest "Missing required fields").
Proof. repeat split. Qed.

(** ** The formats offered for a medium *)

Lemma set_add_In (h x : Z) (hs : list Z) :
  In x (set_add h hs) <-> x = h \/ In x hs.
Proof.
  unfold set_add. destruct (existsb (Z.eqb h) hs) eqn:E.
  - split; [auto|]. intros [->|H]; [|exact H].
    apply existsb_exists in E as (y & I & Q). apply Z.eqb_eq in Q. now subst.
  - rewrite in_app_iff. simpl. intuition.
Qed.

Lemma add_stream_In (x : Z) (hs : list Z) (f : Stream) :
  In x (add_stream hs f) <->
  In x hs \/ (height f = Some x /\ x <> 0%Z /\ vcodec f <> Some "none").
Proof.
  unfold add_stream. destruct (height f) as [h|]; [|intuition discriminate].
  destruct (Z.eqb_spec h 0) as [->|N]; simpl.
  - split; [auto|]. intros [H|(E & N & _)]; [exact H|]. injection E as <-. now elim N.
  - destruct (vcodec f) as [v|]; simpl.
    + destruct (String.eqb_spec v "none") as [->|NV]; simpl.
      * split; [auto|]. intros [H|(_ & _ & C)]; [exact H | now elim C].
      * rewrite set_add_In. split.
        -- intros [->|H]; [right|now left]. repeat split; auto. congruence.
        -- intros [H|(E & _)]; [now right | left; congruence].
    + rewrite set_add_In. split.
      * intros [->|H]; [right|now left]. repeat split; auto. discriminate.
      * intros [H|(E & _)]; [now right | left; congruence].
Qed.

Lemma availableHeights_In (formats : list Stream) (x : Z) :
  In x (availableHeights formats) <->
  exists f, In f formats /\ height f = Some x /\ x <> 0%Z
            /\ vcodec f <> Some "none".
Proof.
  unfold availableHeights.
  assert (G : forall hs,
             In x (fold_left add_stream formats hs) <->
             In x hs \/ exists f, In f formats /\ height f = Some x /\ x <> 0%Z
                                  /\ vcodec f <> Some "none").
  { induction formats as [|f fs IH]; intros hs; simpl.
    - split; [auto|]. intros [H|(f & [] & _)]. exact H.
    - rewrite IH, add_stream_In. split.
      + intros [[H|H]|(g & I & R)]; [now left| |].
        * right. exists f. auto.
        * right. exists g. auto.
      + intros [H|(g & [<-|I] & R)]; [now left; left| |].
        * left; right. exact R.
        * right. exists g. auto. }
  rewrite G. simpl. split; [intros [[]|H]; exact H | auto].
Qed.

Lemma available_iff (hs : list Z) (format : Format) :
  available hs format = true <->
  exists n h, tier_height format = Some n /\ In h hs /\ (n <= h)%Z.
Proof.
  unfold available, tier_height.
  destruct (parseInt _) as [n|].
  - rewrite existsb_exists. split.
    + intros (h & I & G). exists n, h. repeat split; auto.
      apply Z.geb_le in G. exact G.
    + intros (n' & h & E & I & L). injection E as <-. exists h.
      split; [exact I|]. now apply Z.geb_le.
  - split; [discriminate|]. intros (n & h & E & _). discriminate.
Qed.

(** A stream that reaches a tier reaches every lower tier. *)
Lemma available_lower (hs : list Z) (f g : Format) (n m : Z) :
  tier_height f = Some n -> tier_height g = Some m -> (m <= n)%Z ->
  available hs f = true -> available hs g = true.
Proof.
  intros F G L A. apply available_iff in A as (n' & h & E & I & H).
  rewrite F in E. injection E as <-.
  apply available_iff. exists m, h. repeat split; auto. lia.
Qed.

Lemma filter_all {A : Type} (p : A -> bool) (l : list A) :
  (forall x, In x l -> p x = true) -> filter p l = l.
Proof.
  induction l as [|x l IH]; simpl; intros H; [reflexivity|].
  rewrite (H x (or_introl eq_refl)), IH; auto.
Qed.

(** Filtering a list in which whoever passes is followed only by elements
    that pass keeps a final segment of it. *)
Lemma filter_final_segment {A : Type} (p : A -> bool) (l : list A) :
  (forall pre x post, l = (pre ++ x :: post)%list -> p x = true ->
                      forall y, In y post -> p y = true) ->
  exists pre, l = (pre ++ filter p l)%list.
Proof.
  induction l as [|x l IH]; intros H; [now exists []|].
  simpl. destruct (p x) eqn:P.
  - exists []. simpl. f_equal. symmetry. apply filter_all.
    exact (H [] x l eq_refl P).
  - destruct IH as [pre E].
    + intros pre0 y post E Py. apply (H (x :: pre0) y post); [|exact Py].
      simpl. now rewrite E.
    + exists (x :: pre). simpl. now rewrite <- E.
Qed.

(** The tiers are listed from the highest to the lowest. *)
Lemma videoFormats_descend (pre post : list Format) (f g : Format) :
  videoFormats = (pre ++ f :: post)%list -> In g post ->
  exists n m, tier_height f = Some n /\ tier_height g = Some m /\ (m <= n)%Z.
Proof.
  unfold videoFormats. intros E I.
  do 7 (destruct pre as [|? pre];
        [ injection E as <- <-; simpl in I;
          repeat (destruct I as [<-|I]; [do 2 eexists; repeat split; vm_compute; discriminate|]);
          destruct I
        | injection E as _ E ]).
  destruct pre; discriminate.
Qed.

Lemma videoFormats_heights (format : Format) :
  In format videoFormats ->
  exists n, tier_height format = Some n /\ (240 <= n)%Z.
Proof.
  unfold videoFormats. simpl.
  intros H. repeat (destruct H as [<-|H]; [eexists; split; vm_compute; [reflexivity|discriminate]|]).
  destruct H.
Qed.

(** X12. The heights that count for a medium are those of its streams that
    have a non-zero height and a video codec other than "none".  The list of
    formats in the answer is never empty and is always a final segment of
    the seven tiers, listed from 4K down to 240p.  When some stream reaches
    240 lines, a tier is offered exactly when some stream is at least as
    high as the tier; when none does (an audio-only medium, say), all seven
    tiers are offered. *)
Theorem offered_formats_follow_the_highest_stream (formats : list Stream) :
  (forall h,
      In h (availableHeights formats) <->
      exists f, In f formats /\ height f = Some h /\ h <> 0%Z
                /\ vcodec f <> Some "none")
  /\ offered formats <> []
  /\ (exists higher, videoFormats = (higher ++ offered formats)%list)
  /\ ((exists h, In h (availableHeights formats) /\ (240 <= h)%Z) ->
      forall format,
        In format (offered formats) <->
        In format videoFormats
        /\ exists n h, tier_height format = Some n
                       /\ In h (availableHeights formats) /\ (n <= h)%Z)
  /\ ((forall h, In h (availableHeights formats) -> (h < 240)%Z) ->
      offered formats = videoFormats).
Proof.
  set (hs := availableHeights formats).
  assert (Seg : exists pre, videoFormats = (pre ++ filter (available hs) videoFormats)%list).
  { apply filter_final_segment. intros pre f post E A g I.
    destruct (videoFormats_descend _ _ _ _ E I) as (n & m & F & G & L).
    exact (available_lower hs f g n m F G L A). }
  assert (Off : offered formats = filter (available hs) videoFormats
                \/ (filter (available hs) videoFormats = []
                    /\ offered formats = videoFormats)).
  { unfold offered. fold hs.
    destruct (filter (available hs) videoFormats) as [|x l]; simpl; auto. }
  split; [apply availableHeights_In|].
  split; [|split; [|split]].
  - destruct Off as [E|[_ E]]; rewrite E; [|discriminate].
    unfold offered in E. fold hs in E.
    destruct (filter (available hs) videoFormats); simpl in *; discriminate.
  - destruct Off as [E|[_ E]]; rewrite E; [exact Seg | now exists []].
  - intros (h & I & L) format.
    assert (Low : In (tier "240" "240p") (filter (available hs) videoFormats)).
    { apply filter_In. split; [unfold videoFormats; simpl; tauto|].
      apply available_iff. exists 240%Z, h. repeat split; auto. }
    destruct Off as [E|[E _]]; [|rewrite E in Low; destruct Low].
    rewrite E, filter_In, available_iff. reflexivity.
  - intros Hlow.
    destruct Off as [E|[_ E]]; [|exact E].
    rewrite E. unfold offered in E. fold hs in E.
    destruct (filter (available hs) videoFormats) as [|x l] eqn:F;
      [simpl in E; congruence|].
    assert (I : In x (filter (available hs) videoFormats))
      by (rewrite F; now left).
    apply filter_In in I as [I A].
    apply available_iff in A as (n & h & T & Ih & L).
    destruct (videoFormats_heights _ I) as (n' & T' & L').
    rewrite T in T'. injection T' as <-.
    specialize (Hlow _ Ih). lia.
Qed.

Example offered_for_a_720p_medium :
  map quality
      (offered [ mkStream (Some 720%Z) (Some "avc1");
                 mkStream (Some 1080%Z) (Some "none");
                 mkStream None (Some "mp4a") ])
  = ["720p"; "480p"; "360p"; "240p"].
Proof. reflexivity. Qed.

(** ** One answer per info request *)

Section InfoFacts.
Variable Meta : Type.
Variable parse_info : string -> option (Meta * list Stream).

Lemma info_run_after_answer (st : InfoState) (es : list info_event) :
  responseSent st = true -> info_run Meta parse_info st es = [].
Proof.
  revert st; induction es as [|e es IH]; intros st S; simpl; [reflexivity|].
  destruct e; simpl; try rewrite S; simpl; try (now apply IH).
  destruct (negb (includes message "WARNING:")); simpl; now apply IH.
Qed.

(** X13. However the callbacks of the yt-dlp process of an info request
    arrive (output, launch error, exit, in any order and number), the
    request is answered at most once, and exactly once as soon as a launch
    error or an exit is among them; whatever comes after the first answer
    sends nothing. *)
Theorem info_request_is_answered_once (es : list info_event) :
  (List.length (info_run Meta parse_info info_start es) <= 1)%nat
  /\ (forallb is_output es = false ->
      List.length (info_run Meta parse_info info_start es) = 1%nat)
  /\ (forallb is_output es = true ->
      info_run Meta parse_info info_start es = []).
Proof.
  assert (G : forall st, responseSent st = false ->
    (forallb is_output es = false ->
       List.length (info_run Meta parse_info st es) = 1%nat)
    /\ (forallb is_output es = true -> info_run Meta parse_info st es = [])).
  { induction es as [|e es IH]; intros st S; simpl.
    - split; [discriminate|reflexivity].
    - destruct e; simpl; try rewrite S; simpl.
      + apply IH. reflexivity.
      + destruct (negb (includes message "WARNING:")); simpl; apply IH;
          first [exact S | reflexivity].
      + split; [|discriminate]. intros _.
        now rewrite info_run_after_answer.
      + split; [|discriminate]. intros _.
        destruct (nonzero code); simpl;
          [now rewrite info_run_after_answer|].
        destruct (parse_info (data st)) as [[meta formats]|]; simpl;
          now rewrite info_run_after_answer. }
  destruct (G info_start eq_refl) as [G1 G2].
  split; [|split; [exact G1 | exact G2]].
  destruct (forallb is_output es) eqn:F.
  - rewrite (G2 eq_refl). simpl. lia.
  - rewrite (G1 eq_refl). lia.
Qed.

Lemma info_output_only (es : list info_event) (st : InfoState) :
  forallb is_output es = true ->
  forall code rest,
    nonzero code = true -> responseSent st = false ->
    info_run Meta parse_info st (es ++ InfoClose code :: rest)
    = [InfoFailed Meta (or_else (Some (errorData st ++ kept_stderr es))
                                "Failed to fetch media info")].
Proof.
  revert st; induction es as [|e es IH]; intros st F code rest N S; simpl.
  - rewrite S, N. simpl. rewrite append_nil_r.
    now rewrite info_run_after_answer.
  - destruct e; simpl in F; try discriminate.
    + simpl. now rewrite IH.
    + simpl. destruct (includes message "WARNING:"); simpl.
      * now rewrite IH.
      * rewrite IH by auto. simpl. now rewrite string_app_assoc.
Qed.

(** X14. When yt-dlp exits with a code other than 0 after output only, the
    request is answered with the stderr text that was kept, and that is the
    chunks without "WARNING:" joined in arrival order: a chunk that
    contains "WARNING:" is dropped whole, whatever else it holds.  When
    nothing was kept the message is "Failed to fetch media info". *)
Theorem info_failure_reports_the_kept_stderr
  (es rest : list info_event) (code : option Z) :
  forallb is_output es = true ->
  nonzero code = true ->
  info_run Meta parse_info info_start (es ++ InfoClose code :: rest)
  = [InfoFailed Meta
       (if kept_stderr es =? "" then "Failed to fetch media info"
        else kept_stderr es)].
Proof.
  intros F N. rewrite (info_output_only es info_start F code rest N eq_refl).
  reflexivity.
Qed.
End InfoFacts.

Lemma info_failure_reports_the_kept_stderr_witness :
  info_run unit (fun _ => None) info_start
    ([InfoStderr "WARNING: slow connection; ERROR: unsupported URL"]
     ++ [InfoClose (Some 1%Z)])
  = [InfoFailed unit "Failed to fetch media info"].
Proof.
  exact (info_failure_reports_the_kept_stderr unit (fun _ => None)
           [InfoStderr "WARNING: slow connection; ERROR: unsupported URL"] []
           (Some 1%Z) eq_refl eq_refl).
Defined.

(** ** The client library against the server *)

Lemma base_url : replace API_BASE "/api" "" = "http://localhost:3000".
Proof. reflexivity. Qed.

(** X15. [getDownloadUrl] returns the empty string for the empty string and
    otherwise a string that starts with "http": an address that already
    does is returned as it is, any other is put behind
    "http://localhost:3000".  Applying it twice is the same as applying it
    once, and the file URL the server puts in a progress answer passes
    through unchanged. *)
Theorem getDownloadUrl_makes_urls_absolute (file_url : string) :
  (getDownloadUrl file_url = "" <-> file_url = "")
  /\ (file_url <> "" -> startsWith (getDownloadUrl file_url) "http" = true)
  /\ (startsWith file_url "http" = true -> getDownloadUrl file_url = file_url)
  /\ (startsWith file_url "http" = false -> file_url <> "" ->
      getDownloadUrl file_url = "http://localhost:3000" ++ file_url)
  /\ getDownloadUrl (getDownloadUrl file_url) = getDownloadUrl file_url
  /\ (forall f, getDownloadUrl (fileUrl f) = fileUrl f).
Proof.
  assert (A : file_url <> "" -> startsWith (getDownloadUrl file_url) "http" = true).
  { intros N. unfold getDownloadUrl. apply String.eqb_neq in N. rewrite N.
    destruct (startsWith file_url "http") eqn:P; [exact P|].
    rewrite base_url. reflexivity. }
  assert (Z : getDownloadUrl file_url = "" <-> file_url = "").
  { split; [|now intros ->].
    intros E. destruct (String.eqb_spec file_url "") as [->|N]; [reflexivity|].
    specialize (A N). rewrite E in A. discriminate. }
  split; [exact Z|]. split; [exact A|]. split; [|split; [|split]].
  - intros P. unfold getDownloadUrl. rewrite P.
    now destruct (String.eqb_spec file_url "") as [->|N].
  - intros P N. unfold getDownloadUrl. apply String.eqb_neq in N.
    now rewrite N, P, base_url.
  - destruct (String.eqb_spec file_url "") as [->|N]; [reflexivity|].
    specialize (A N). unfold getDownloadUrl at 1.
    assert (N' : getDownloadUrl file_url <> "") by (intros E; apply N, Z, E).
    apply String.eqb_neq in N'. now rewrite N', A.
  - intros f. reflexivity.
Qed.

Lemma uuid_nonempty (u : uuid) : (uuid_text u =? "") = false.
Proof.
  apply String.eqb_neq. intros E.
  pose proof (uuid_length _ (uuid_wf u)) as L. rewrite E in L. discriminate.
Qed.

(** X16. One poll of the client for a job identifier, against any state the
    server can reach: it rejects with "Job not found" when the record is
    gone (swept, or never there); it resolves, with progress 100 and the
    URL of the job's own file, when the record is completed; it rejects
    with the message stored in the record, one of the four the server
    writes, when the record is in error; and it keeps waiting, reporting the
    current progress, while the record is downloading. *)
Theorem poll_tick_follows_the_record (d : Dir) (es : list event) (u : uuid) :
  (get u (jobs (reached d es)) = None ->
   poll_tick u (get_progress (jobs (reached d es)) u) = Rejected "Job not found")
  /\ (forall job,
        get u (jobs (reached d es)) = Some job -> status job = Completed ->
        exists f,
          file job = Some f /\ startsWith f u = true
          /\ poll_tick u (get_progress (jobs (reached d es)) u)
             = Resolved (Res.mk 200 true (Some Completed) (Some 100)
                           (Some ("http://localhost:3000/downloads/" ++ f)) None))
  /\ (forall job,
        get u (jobs (reached d es)) = Some job -> status job = Error ->
        exists m,
          error job = Some m /\ In m failure_messages
          /\ poll_tick u (get_progress (jobs (reached d es)) u) = Rejected m)
  /\ (forall job,
        get u (jobs (reached d es)) = Some job -> status job = Downloading ->
        poll_tick u (get_progress (jobs (reached d es)) u)
        = Waiting (Res.mk 200 true (Some Downloading) (Some (progress job))
                     None None)).
Proof.
  unfold poll_tick, getProgress, get_progress.
  rewrite lookup_uuid, uuid_nonempty.
  split; [|split; [|split]].
  - intros G. now rewrite G.
  - intros job G S.
    destruct (reached_completed_has_file d es u job G S) as (f & F & N & P).
    exists f. repeat split; auto. rewrite G, S. unfold fileUrl. now rewrite F.
  - intros job G S.
    destruct (reached_error_has_message d es u job G S) as (m & E & I).
    exists m. repeat split; auto. rewrite G, S, E. simpl.
    unfold failure_messages in I. simpl in I.
    repeat (destruct I as [<-|I]; [reflexivity|]). destruct I.
  - intros job G S. now rewrite G, S.
Qed.

(** ** Sweeps, files and queries *)

(** X17. A sweep deletes no file other than the ones recorded by expired
    records: any other entry of the download directory (a file of a running
    or recent job, a partial download, a file no record names) is the same
    after the sweep as before, whether the sweep returns or throws, and the
    directory stays as readable as it was. *)
Theorem cleanup_leaves_unrecorded_files (now : Z) (w : World) (f : string) :
  (forall k job, get k (jobs w) = Some job -> expired now job = true ->
                 backing_file job <> Some f) ->
  get f (entries (disk (world_of (cleanup now w)))) = get f (entries (disk w))
  /\ listable (disk (world_of (cleanup now w))) = listable (disk w).
Proof.
  intros H. split.
  - now apply cleanup_keeps_other_files.
  - exact (proj1 (proj2 (proj2 (cleanup_keys_shrinks now (keys (jobs w)) w)))).
Qed.

Lemma mixed_part_file_is_unrecorded (k : string) (job : Job) :
  get k (jobs mixed) = Some job -> expired 4000000 job = true ->
  backing_file job <> Some "a81bc81b-dead-4e5d-abff-90865d1e13b1.part".
Proof.
  cbn [mixed jobs get]. intros G X.
  destruct (k =? job_a)%string.
  - injection G as <-. discriminate.
  - destruct (k =? job_b)%string; [|discriminate G].
    injection G as <-. discriminate X.
Qed.

Lemma cleanup_leaves_unrecorded_files_witness :
  get "a81bc81b-dead-4e5d-abff-90865d1e13b1.part"
      (entries (disk (world_of (cleanup 4000000 mixed))))
  = Some Regular.
Proof.
  exact (proj1
    (cleanup_leaves_unrecorded_files 4000000 mixed
       "a81bc81b-dead-4e5d-abff-90865d1e13b1.part"
       mixed_part_file_is_unrecorded)).
Defined.

(** X18. After a sweep that has run to its end, the progress query for a
    job whose record had expired answers 404 "Job not found", the file the
    record named is no longer in the directory, and one more poll of the
    client for that job is rejected with "Job not found". *)
Theorem swept_job_is_not_found
  (now : Z) (w w' : World) (jobId : uuid) (job : Job) :
  cleanup now w = Returned w' ->
  get jobId (jobs w) = Some job ->
  expired now job = true ->
  get_progress (jobs w') jobId
    = Res.mk 404 false None None None (Some "Job not found")
  /\ (forall f, backing_file job = Some f -> existsSync (disk w') f = false)
  /\ poll_tick jobId (get_progress (jobs w') jobId) = Rejected "Job not found".
Proof.
  intros R G X.
  assert (N : get jobId (jobs w') = None).
  { unfold cleanup in R.
    now rewrite (cleanup_keys_jobs _ _ _ _ R jobId), G, X, (existsb_keys _ _ _ G). }
  assert (Q : get_progress (jobs w') jobId
              = Res.mk 404 false None None None (Some "Job not found")).
  { unfold get_progress. now rewrite lookup_uuid, N. }
  split; [exact Q|]. split.
  - intros f B. unfold existsSync.
    pose proof (cleanup_removes_file_first now (keys (jobs w)) w jobId job f G B) as F.
    unfold cleanup in R. rewrite R in F. simpl in F. now rewrite (F N).
  - rewrite Q. unfold poll_tick, getProgress. now rewrite uuid_nonempty.
Qed.

Lemma swept_job_is_not_found_witness :
  get_progress
    [ (uuid_text job_b, mkJob Downloading 0 None None 3999000) ] job_a
  = Res.mk 404 false None None None (Some "Job not found").
Proof.
  exact (proj1
    (swept_job_is_not_found 4000000 (reached (mkDir true []) sample_run) _ job_a
       (mkJob Completed 100 (Some file_a) None 0)
       (proj2 sample_run_sweep) eq_refl eq_refl)).
Defined.

Section SubmitFacts.
Variable isValidUrl : jsval -> bool.
Variable outputPath : string -> string.
Variable spawn_throws : list jsval -> bool.

(** X19. The job id an accepted download request returns can be queried at
    once: the progress query answers 200 with status downloading and
    progress 0, whatever the table held before (an older record under the
    same id included), and every other id is answered as before the
    request. *)
Theorem accepted_download_is_queryable_at_once
  (js js' : Jobs) (jobId : uuid) (now : Z) (b : Body.t)
  (job_id : string) (args : list jsval) :
  post_download isValidUrl outputPath spawn_throws js jobId now b
  = (js', Started job_id args) ->
  get_progress js' job_id
    = Res.mk 200 true (Some Downloading) (Some 0) None None
  /\ (forall k, k <> job_id -> get_progress js' k = get_progress js k).
Proof.
  intros P.
  pose proof (post_download_cases isValidUrl outputPath spawn_throws
                js jobId now b) as V.
  rewrite P in V. destruct V as (-> & -> & G & _).
  split.
  - unfold get_progress. now rewrite lookup_uuid, G.
  - intros k N. unfold get_progress, lookup, create_job.
    now rewrite get_assign_ne.
Qed.
End SubmitFacts.

Lemma accepted_download_is_queryable_at_once_witness :
  get_progress (create_job [] job_a 5) job_a
  = Res.mk 200 true (Some Downloading) (Some 0) None None.
Proof.
  exact (proj1
    (accepted_download_is_queryable_at_once
       (fun _ => true) (fun n => n) (fun _ => false)
       [] _ job_a 5
       (Body.mk (JStr "https://example.org/v") (JStr "best")
                JUndefined JUndefined)
       _ _ eq_refl)).
Defined.

(** ** The parser, to the last bit *)

(** ** The rounding *)

Section Rounding.
Local Open Scope Z_scope.

(** [round_half_even n d] is an integer nearest to [n / d], and the even one
    of the two when [n / d] lies half way. *)
Lemma round_half_even_nearest (n d : Z) :
  0 < d ->
  2 * Z.abs (n - round_half_even n d * d) <= d
  /\ (2 * Z.abs (n - round_half_even n d * d) = d -> Z.even (round_half_even n d) = true).
Proof.
  intros D. unfold round_half_even.
  pose proof (Z.div_mod n d ltac:(lia)) as E.
  pose proof (Z.mod_pos_bound n d D) as B.
  destruct (Z.compare_spec (2 * (n mod d)) d) as [C|C|C].
  - destruct (Z.even (n / d)) eqn:Ev.
    + split; [lia | auto].
    + split; [lia|]. intros _. rewrite Z.even_add, Ev. reflexivity.
  - split; lia.
  - split; lia.
Qed.

(** [floor_log2 n d] is the exponent of the binade of [n / d]. *)
Lemma floor_log2_spec (n d : Z) :
  0 < n -> 0 < d ->
  (0 <= floor_log2 n d ->
   d * 2 ^ floor_log2 n d <= n < d * 2 ^ (floor_log2 n d + 1))
  /\ (floor_log2 n d < 0 ->
      n * 2 ^ (- floor_log2 n d - 1) < d <= n * 2 ^ (- floor_log2 n d)).
Proof.
  intros N D. unfold floor_log2.
  destruct (Z.log2_spec n N) as [A1 A2]. destruct (Z.log2_spec d D) as [B1 B2].
  pose proof (Z.log2_nonneg n) as An. pose proof (Z.log2_nonneg d) as Bn.
  set (a := Z.log2 n) in *. set (b := Z.log2 d) in *.
  rewrite <- !Z.add_1_r in *.
  destruct (0 <=? a - b) eqn:S0.
  - apply Z.leb_le in S0.
    assert (Ea : 2 ^ (a + 1) = 2 ^ b * 2 ^ (a - b + 1)).
    { rewrite <- Z.pow_add_r by lia. f_equal; lia. }
    assert (P : 0 < 2 ^ (a - b + 1)) by (apply Z.pow_pos_nonneg; lia).
    destruct (d * 2 ^ (a - b) <=? n) eqn:T.
    + apply Z.leb_le in T. split; [|lia]. intros _. split; [exact T|]. nia.
    + apply Z.leb_gt in T.
      destruct (Z.eq_dec a b) as [Eab|Nab].
      * assert (Z0 : a - b = 0) by lia. rewrite Z0 in *.
        rewrite Z.pow_0_r in T. split; [lia|]. intros _.
        change (- (0 - 1) - 1) with 0. change (- (0 - 1)) with 1.
        rewrite Z.pow_0_r, Z.pow_1_r.
        rewrite Eab in A1, A2. rewrite Z.pow_add_r, Z.pow_1_r in A2, B2 by lia.
        lia.
      * split; [|lia]. intros _. replace (a - b - 1 + 1) with (a - b) by lia.
        split; [|exact T].
        assert (Eb : 2 ^ a = 2 ^ (b + 1) * 2 ^ (a - b - 1)).
        { rewrite <- Z.pow_add_r by lia. f_equal; lia. }
        assert (P' : 0 < 2 ^ (a - b - 1)) by (apply Z.pow_pos_nonneg; lia).
        nia.
  - apply Z.leb_gt in S0.
    destruct (d <=? n * 2 ^ (- (a - b))) eqn:T.
    + apply Z.leb_le in T. split; [lia|]. intros _. split; [|exact T].
      assert (Eb : 2 ^ b = 2 ^ (a + 1) * 2 ^ (- (a - b) - 1)).
      { rewrite <- Z.pow_add_r by lia. f_equal; lia. }
      assert (P' : 0 < 2 ^ (- (a - b) - 1)) by (apply Z.pow_pos_nonneg; lia).
      nia.
    + apply Z.leb_gt in T. split; [lia|]. intros _.
      replace (- (a - b - 1) - 1) with (- (a - b)) by lia.
      split; [exact T|].
      assert (Eb : 2 ^ (b + 1) = 2 ^ a * 2 ^ (- (a - b - 1))).
      { rewrite <- Z.pow_add_r by lia. f_equal; lia. }
      assert (P' : 0 < 2 ^ (- (a - b - 1))) by (apply Z.pow_pos_nonneg; lia).
      nia.
Qed.

Lemma round_half_even_between (n d lo hi : Z) :
  0 < d -> lo * d <= n < hi * d -> lo <= round_half_even n d <= hi.
Proof.
  intros D [L H].
  assert (Q1 : lo <= n / d) by (apply Z.div_le_lower_bound; lia).
  assert (Q2 : n / d < hi) by (apply Z.div_lt_upper_bound; lia).
  unfold round_half_even.
  destruct (2 * (n mod d) ?= d); [destruct (Z.even (n / d))| |]; lia.
Qed.

(** [binary64] of a positive [n / d] is [m * 2 ^ p], or [Infinity] when that
    reaches [2 ^ 1024], where [m] is an integer nearest to [n / (d * 2 ^ p)],
    the even one at a tie, and the exponent [p] is the one that gives [m]
    its 53 bits, or -1074 when that would be smaller. *)
Lemma binary64_is_nearest (n : Z) (d : positive) :
  0 < n ->
  exists m p : Z,
    -1074 <= p
    /\ 0 <= m <= 2 ^ 53
    /\ (2 ^ 52 <= m \/ p = -1074)
    /\ (if 0 <=? p
        then 2 * Z.abs (n - m * (Zpos d * 2 ^ p)) <= Zpos d * 2 ^ p
             /\ (2 * Z.abs (n - m * (Zpos d * 2 ^ p)) = Zpos d * 2 ^ p ->
                 Z.even m = true)
        else 2 * Z.abs (n * 2 ^ (- p) - m * Zpos d) <= Zpos d
             /\ (2 * Z.abs (n * 2 ^ (- p) - m * Zpos d) = Zpos d ->
                 Z.even m = true))
    /\ binary64 (n # d) =
       if 0 <=? p
       then if 2 ^ 1024 <=? m * 2 ^ p then Infinity
            else Finite (inject_Z (m * 2 ^ p))
       else Finite (Qred (m # Z.to_pos (2 ^ (- p)))).
Proof.
  intros N. unfold binary64. cbn [Qnum Qden].
  destruct (n <=? 0) eqn:N0; [apply Z.leb_le in N0; lia|].
  destruct (floor_log2_spec n (Zpos d) N eq_refl) as [Hp Hn].
  set (e := floor_log2 n (Zpos d)) in *.
  set (p := Z.max (e - 52) (-1074)).
  assert (Pp : -1074 <= p) by (unfold p; lia).
  destruct (0 <=? p) eqn:P0.
  - pose proof (proj1 (Z.leb_le _ _) P0) as P0'.
    assert (Ep : p = e - 52) by (unfold p in *; lia).
    assert (D' : 0 < Zpos d * 2 ^ p).
    { apply Z.mul_pos_pos; [lia | apply Z.pow_pos_nonneg; lia]. }
    exists (round_half_even n (Zpos d * 2 ^ p)), p.
    rewrite P0. split; [exact Pp|].
    assert (B : 2 ^ 52 <= round_half_even n (Zpos d * 2 ^ p) <= 2 ^ 53).
    { apply round_half_even_between; [exact D'|].
      destruct (Hp ltac:(lia)) as [H1 H2].
      replace e with (52 + p) in H1 by lia.
      replace (e + 1) with (53 + p) in H2 by lia.
      rewrite Z.pow_add_r in H1, H2 by lia. lia. }
    split; [lia|]. split; [left; lia|].
    split; [apply round_half_even_nearest; exact D' | reflexivity].
  - pose proof (proj1 (Z.leb_gt _ _) P0) as P0'.
    exists (round_half_even (n * 2 ^ (- p)) (Zpos d)), p.
    rewrite P0. split; [exact Pp|].
    assert (Q2 : 0 < 2 ^ (- p)) by (apply Z.pow_pos_nonneg; lia).
    destruct (Z_le_gt_dec (-1074) (e - 52)) as [Nm|Sub].
    + assert (Ep : p = e - 52) by (unfold p in *; lia).
      assert (B : 2 ^ 52 <= round_half_even (n * 2 ^ (- p)) (Zpos d) <= 2 ^ 53).
      { apply round_half_even_between; [lia|].
        destruct (Z_le_gt_dec 0 e) as [E0|E0].
        - destruct (Hp E0) as [H1 H2].
          assert (X : 2 ^ 52 = 2 ^ e * 2 ^ (- p)).
          { rewrite <- Z.pow_add_r by lia. f_equal; lia. }
          assert (Y : 2 ^ 53 = 2 ^ (e + 1) * 2 ^ (- p)).
          { rewrite <- Z.pow_add_r by lia. f_equal; lia. }
          rewrite X, Y. nia.
        - destruct (Hn ltac:(lia)) as [H1 H2].
          assert (X : 2 ^ (- p) = 2 ^ (- e) * 2 ^ 52).
          { rewrite <- Z.pow_add_r by lia. f_equal; lia. }
          assert (Y : 2 ^ (- p) = 2 ^ (- e - 1) * 2 ^ 53).
          { rewrite <- Z.pow_add_r by lia. f_equal; lia. }
          split.
          + rewrite X. nia.
          + rewrite Y. nia. }
      split; [lia|]. split; [left; lia|].
      split; [apply round_half_even_nearest; lia | reflexivity].
    + assert (Ep : p = -1074) by (unfold p in *; lia).
      assert (B : 0 <= round_half_even (n * 2 ^ (- p)) (Zpos d) <= 2 ^ 53).
      { apply round_half_even_between; [lia|].
        destruct (Hn ltac:(lia)) as [H1 H2]. split; [nia|].
        assert (Y : 2 ^ (- p) * 2 ^ (- 1022 - e) = 2 ^ (- e - 1) * 2 ^ 53).
        { rewrite <- !Z.pow_add_r by lia. f_equal; lia. }
        assert (Q3 : 0 < 2 ^ (- 1022 - e)) by (apply Z.pow_pos_nonneg; lia).
        assert (Q4 : 0 < 2 ^ 53) by reflexivity.
        nia. }
      split; [lia|]. split; [right; exact Ep|].
      split; [apply round_half_even_nearest; lia | reflexivity].
Qed.
End Rounding.

(** Known values of the rounding: 0.1, a third, a tie between two integers
    above [2 ^ 53], the integer 10^23, the smallest positive number and half
    of it, and the overflow. *)
Example binary64_known_values :
  binary64 0.1 = Finite (3602879701896397 # 36028797018963968)
  /\ binary64 (1 # 3) = Finite (6004799503160661 # 18014398509481984)
  /\ binary64 9007199254740993 = Finite 9007199254740992
  /\ binary64 9007199254740995 = Finite 9007199254740996
  /\ binary64 100000000000000000000000 = Finite 99999999999999991611392
  /\ binary64 (1 # Z.to_pos (2 ^ 1074)) = Finite (1 # Z.to_pos (2 ^ 1074))
  /\ binary64 (1 # Z.to_pos (2 ^ 1075)) = Finite 0
  /\ binary64 (inject_Z (2 ^ 1024 - 2 ^ 971)) = Finite (inject_Z (2 ^ 1024 - 2 ^ 971))
  /\ binary64 (inject_Z (2 ^ 1024 - 2 ^ 970)) = Infinity
  /\ binary64 (inject_Z (10 ^ 309)) = Infinity.
Proof. repeat split; vm_compute; reflexivity. Qed.

(** C5, as the code has it.  [parse64 line] is the binary64 number nearest
    to the decimal written by the leftmost occurrence in [line] of the
    pattern [/(\d+\.\d+)%/]: one or more ASCII digits, a point, one or more
    ASCII digits, and a percent sign right after them.  It is absent exactly
    when [line] has no such occurrence, and no line makes it fail.  The three
    sample lines give the number written 12.3, nothing, and 100. *)
Theorem parse64_is_the_leftmost_fraction_before_a_percent_sign :
  (forall line v,
      parse64 line = Some v <->
      exists pre d1 d2 post,
        occurs line pre d1 d2 post /\ leftmost line pre
        /\ v = binary64 (decimal d1 d2))
  /\ (forall line,
      parse64 line = None <-> forall pre d1 d2 post, ~ occurs line pre d1 d2 post)
  /\ parse64 "12.3% of 10.5MiB" = Some (binary64 12.3)
  /\ parse64 "ERROR: no such format" = None
  /\ parse64 "100.0%" = Some (Finite 100).
Proof.
  split; [|split].
  - intros line v. unfold parse64. split.
    + destruct (parse line) as [q|] eqn:P; [|discriminate].
      intros H; injection H as <-.
      apply parse_some in P as (pre & d1 & d2 & post & O & L & ->).
      now exists pre, d1, d2, post.
    + intros (pre & d1 & d2 & post & O & L & ->).
      assert (P : parse line = Some (decimal d1 d2)).
      { apply parse_some. now exists pre, d1, d2, post. }
      now rewrite P.
  - intros line. rewrite <- parse_none. unfold parse64.
    destruct (parse line); split; congruence.
  - repeat split; vm_compute; reflexivity.
Qed.

(** C5 fails as worded: a whole percentage is a decimal number right before
    a percent sign and gives nothing (the last line yt-dlp prints is of that
    kind), a sign before the digits is dropped, and digits beyond what
    binary64 holds do not change the result. *)
Lemma parse64_misses_whole_percentages_and_signs :
  parse64 "50%" = None
  /\ parse64 "[download] 100% of 3.45MiB in 00:02" = None
  /\ parse64 "-5.5%" = Some (Finite (11 # 2))
  /\ parse64 "100.00000000000000001%" = Some (Finite 100).
Proof. repeat split; vm_compute; reflexivity. Qed.

(** ** Status, callback after callback *)

Lemma on_close_get_other (js : Jobs) (u : uuid) (code : option Z) (k : string) :
  k <> u -> get k (fst (on_close js u code)) = get k js.
Proof.
  intros N. unfold on_close.
  destruct (lookup js u); try (destruct (nonzero code)); simpl;
    try rewrite update_get_other by exact N; reflexivity.
Qed.

Lemma nonzero_false (code : option Z) : nonzero code = false -> code = Some 0%Z.
Proof.
  destruct code as [c|]; simpl; [|discriminate].
  intros H. apply negb_false_iff, Z.eqb_eq in H. now subst.
Qed.

(** What a callback that can come next does to a record and to the phase of
    its process. *)
Lemma sys_step_record (s : System) (e : event) (k : string) (job' : Job) :
  in_step s -> enabled s e = true ->
  get k (jobs (world (sys_step s e))) = Some job' ->
  match get k (procs (sys_step s e)) with
  | Some Running => status job' = Downloading
  | Some Armed => status job' = Downloading
  | Some Failed => status job' = Error
  | Some Ended => True
  | None => False
  end
  /\ match get k (jobs (world s)) with
     | Some job =>
         forward (status job) (status job')
         /\ (forall u chunk, e = StdoutData u chunk -> status job' = status job)
     | None => exists (u : uuid) now, e = Submit u now /\ k = u /\ get k (procs s) = None
     end.
Proof.
  intros Inv En G. unfold enabled in En. apply andb_true_iff in En as [_ En].
  assert (Same : get k (jobs (world s)) = Some job' ->
                 get k (procs (sys_step s e)) = get k (procs s) ->
                 match get k (procs (sys_step s e)) with
                 | Some Running => status job' = Downloading
                 | Some Armed => status job' = Downloading
                 | Some Failed => status job' = Error
                 | Some Ended => True
                 | None => False
                 end
                 /\ match get k (jobs (world s)) with
                    | Some job =>
                        forward (status job) (status job')
                        /\ (forall u chunk, e = StdoutData u chunk ->
                                            status job' = status job)
                    | None => exists (u : uuid) now, e = Submit u now /\ k = u /\ get k (procs s) = None
                    end).
  { intros G0 P. rewrite P, G0. split; [exact (Inv _ _ G0)|].
    split; [now left | reflexivity]. }
  destruct e; simpl in G, En |- *.
  - (* Submit *)
    destruct (get jobId (procs s)) eqn:P; [discriminate|].
    unfold create_job in G.
    destruct (String.eqb_spec k jobId) as [->|N].
    + rewrite get_assign_eq in G. rewrite get_assign_eq.
      injection G as <-. split; [reflexivity|].
      destruct (get jobId (jobs (world s))) as [job|] eqn:G0; [|eauto 6].
      pose proof (Inv _ _ G0) as X. now rewrite P in X.
    + rewrite get_assign_ne in G by exact N.
      apply Same; [exact G|]. simpl. now rewrite get_assign_ne.
  - (* StdoutData *)
    destruct (String.eqb_spec k jobId) as [->|N].
    + destruct (get jobId (jobs (world s))) as [job|] eqn:G0.
      * rewrite (on_stdout_get _ _ _ line _ G0) in G. injection G as <-. simpl.
        pose proof (Inv _ _ G0) as X.
        destruct (get jobId (procs s)) as [[| | |]|]; try discriminate.
        split; [exact X|]. split; [now left | reflexivity].
      * unfold on_stdout in G. rewrite update_absent in G by exact G0. congruence.
    + unfold on_stdout in G. rewrite update_get_other in G by exact N.
      now apply Same.
  - (* ProcessError *)
    destruct (String.eqb_spec k jobId) as [->|N].
    + rewrite get_assign_eq.
      destruct (get jobId (jobs (world s))) as [job|] eqn:G0.
      * rewrite (on_error_get _ _ _ G0) in G. injection G as <-. simpl.
        split; [reflexivity|]. split; [|discriminate].
        pose proof (Inv _ _ G0) as X.
        destruct (get jobId (procs s)) as [[| | |]|]; try discriminate;
          [right; auto | left; auto].
      * unfold on_error in G. rewrite update_absent in G by exact G0. congruence.
    + unfold on_error in G. rewrite update_get_other in G by exact N.
      apply Same; [exact G|]. simpl. now rewrite get_assign_ne.
  - (* Close *)
    destruct (String.eqb_spec k jobId) as [->|N].
    + rewrite get_assign_eq.
      destruct (get jobId (jobs (world s))) as [job|] eqn:G0.
      * pose proof (Inv _ _ G0) as X.
        destruct (nonzero code) eqn:Z.
        -- destruct (on_close_nonzero _ _ _ _ G0 Z) as [T G1].
           rewrite G1 in G. injection G as <-. rewrite T. simpl.
           split; [exact I|]. split; [|discriminate].
           destruct (get jobId (procs s)) as [[| | |]|]; try discriminate;
             [right; auto | left; auto].
        -- apply nonzero_false in Z. subst code.
           rewrite (on_close_zero _ _ _ G0) in G |- *. simpl in G |- *.
           rewrite G0 in G. injection G as <-.
           destruct (get jobId (procs s)) as [[| | |]|]; try discriminate.
           split; [exact X|]. split; [now left | discriminate].
      * rewrite (on_close_absent _ _ code G0) in G. simpl in G. congruence.
    + rewrite on_close_get_other in G by exact N.
      apply Same; [exact G|]. simpl. now rewrite get_assign_ne.
  - (* Timeout *)
    destruct (String.eqb_spec k jobId) as [->|N].
    + rewrite get_assign_eq.
      destruct (get jobId (jobs (world s))) as [job|] eqn:G0.
      * pose proof (Inv _ _ G0) as X.
        rewrite (on_timeout_get _ (disk (world s)) _ _ G0) in G. injection G as <-.
        destruct (get jobId (procs s)) as [[| | |]|]; try discriminate.
        split; [exact I|]. split; [|discriminate]. right. split; [exact X|].
        destruct (readdirSync (disk (world s))) as [files|]; simpl; auto.
        destruct (find_file files jobId); simpl; auto.
      * unfold on_timeout in G. rewrite update_absent in G by exact G0. congruence.
    + unfold on_timeout in G. rewrite update_get_other in G by exact N.
      apply Same; [exact G|]. simpl. now rewrite get_assign_ne.
  - (* Query *) now apply Same.
  - (* Sweep *)
    apply Same; [|reflexivity].
    exact (proj1 (cleanup_keys_shrinks now _ (world s)) _ _ G).
  - (* DiskChange *) now apply Same.
Qed.

Lemma in_step_start (d : Dir) : in_step (start d).
Proof. intros k job G. discriminate G. Qed.

Lemma sys_step_in_step (s : System) (e : event) :
  in_step s -> enabled s e = true -> in_step (sys_step s e).
Proof.
  intros Inv En k job' G. exact (proj1 (sys_step_record s e k job' Inv En G)).
Qed.

Lemma sys_run_in_step (es : list event) (s s' : System) :
  in_step s -> sys_run s es = Some s' -> in_step s'.
Proof.
  revert s. induction es as [|e es IH]; simpl; intros s Inv R.
  - now injection R as <-.
  - destruct (enabled s e) eqn:En; [|discriminate].
    exact (IH _ (sys_step_in_step s e Inv En) R).
Qed.

Lemma sys_run_app (es1 es2 : list event) (s : System) :
  sys_run s (es1 ++ es2)%list =
  match sys_run s es1 with Some s1 => sys_run s1 es2 | None => None end.
Proof.
  revert s. induction es1 as [|e es1 IH]; simpl; intros s; [reflexivity|].
  destruct (enabled s e); [apply IH | reflexivity].
Qed.

(** A process that was started stays known. *)
Lemma sys_step_procs (s : System) (e : event) (k : string) :
  get k (procs s) <> None -> get k (procs (sys_step s e)) <> None.
Proof.
  intros P.
  assert (A : forall (u : uuid) ph, get k (assign u ph (procs s)) <> None).
  { intros u ph. destruct (String.eqb_spec k u) as [->|N].
    - now rewrite get_assign_eq.
    - now rewrite get_assign_ne. }
  destruct e; simpl; auto.
Qed.

(** The id of a process that was started is not given out again, so a record
    the sweep removed does not come back. *)
Lemma removed_record_stays_removed (es : list event) (s s' : System) (k : string) :
  in_step s -> get k (procs s) <> None -> get k (jobs (world s)) = None ->
  sys_run s es = Some s' -> get k (jobs (world s')) = None.
Proof.
  revert s. induction es as [|e es IH]; simpl; intros s Inv P G R.
  - now injection R as <-.
  - destruct (enabled s e) eqn:En; [|discriminate].
    apply (IH (sys_step s e)); auto using sys_step_in_step, sys_step_procs.
    destruct (get k (jobs (world (sys_step s e)))) as [job'|] eqn:G'; [|reflexivity].
    destruct (sys_step_record s e k job' Inv En G') as [_ X].
    rewrite G in X. destruct X as (u & now & _ & _ & X). contradiction.
Qed.

Lemma forward_refl (a : Status) : forward a a.
Proof. now left. Qed.

Lemma forward_trans (a b c : Status) : forward a b -> forward b c -> forward a c.
Proof.
  unfold forward. intros [E1|[E1 X1]] [E2|[E2 X2]]; subst; auto.
Qed.

Lemma sys_run_forward (es : list event) (s s' : System) (k : string) (job job' : Job) :
  in_step s -> sys_run s es = Some s' ->
  get k (jobs (world s)) = Some job -> get k (jobs (world s')) = Some job' ->
  forward (status job) (status job').
Proof.
  revert s job. induction es as [|e es IH]; simpl; intros s job Inv R G G'.
  - injection R as <-. rewrite G in G'. injection G' as <-. apply forward_refl.
  - destruct (enabled s e) eqn:En; [|discriminate].
    pose proof (sys_step_in_step s e Inv En) as Inv'.
    destruct (get k (jobs (world (sys_step s e)))) as [mid|] eqn:M.
    + destruct (sys_step_record s e k mid Inv En M) as [_ X]. rewrite G in X.
      apply (forward_trans _ (status mid)); [exact (proj1 X)|].
      exact (IH _ _ Inv' R M G').
    + assert (P : get k (procs (sys_step s e)) <> None).
      { apply sys_step_procs. pose proof (Inv _ _ G) as X.
        destruct (get k (procs s)); [discriminate | contradiction]. }
      rewrite (removed_record_stays_removed es _ _ k Inv' P M R) in G'.
      discriminate.
Qed.

(** C2, as the code has it.  Callbacks run to completion, one after the
    other, in an order [child_process] and the timer allow (stdout data only
    while the process runs; [error] only for a process that could not be
    started, and then [close] with a code other than 0; the file-discovery
    timer once, after a [close] with code 0; no job identifier given out
    twice).  From start-up, take the record of a job after any number of
    such callbacks and again after any number more: the later status is the
    earlier one, or the earlier one was downloading and the later one is
    completed or error.  So a completed record is never seen with another
    status afterwards, neither is an error record, no record is seen
    downloading again, and a callback that delivers stdout data leaves the
    status as it was.  A record that is no longer in the table at the later
    point was removed by the sweep and does not return. *)
Theorem status_moves_forward_between_callbacks
  (d : Dir) (es1 es2 : list event) (s1 s2 : System) (k : string) (job : Job) :
  sys_run (start d) es1 = Some s1 ->
  sys_run s1 es2 = Some s2 ->
  get k (jobs (world s1)) = Some job ->
  match get k (jobs (world s2)) with
  | Some job' =>
      forward (status job) (status job')
      /\ (status job = Completed -> status job' = Completed)
      /\ (status job = Error -> status job' = Error)
      /\ (status job' = Downloading -> status job = Downloading)
      /\ (forall u chunk, es2 = [StdoutData u chunk] -> status job' = status job)
  | None =>
      forall es3 s3, sys_run s2 es3 = Some s3 -> get k (jobs (world s3)) = None
  end.
Proof.
  intros R1 R2 G.
  pose proof (sys_run_in_step es1 _ _ (in_step_start d) R1) as Inv1.
  pose proof (sys_run_in_step es2 _ _ Inv1 R2) as Inv2.
  destruct (get k (jobs (world s2))) as [job'|] eqn:G'.
  - pose proof (sys_run_forward es2 _ _ k job job' Inv1 R2 G G') as F.
    split; [exact F|].
    repeat split.
    + intros E. destruct F as [->|[D _]]; congruence.
    + intros E. destruct F as [->|[D _]]; congruence.
    + intros E. destruct F as [<-|[D _]]; congruence.
    + intros u chunk ->. simpl in R2.
      destruct (enabled s1 (StdoutData u chunk)) eqn:En; [|discriminate].
      injection R2 as <-.
      destruct (sys_step_record s1 _ k job' Inv1 En G') as [_ X].
      rewrite G in X. exact (proj2 X u chunk eq_refl).
  - intros es3 s3 R3.
    apply (removed_record_stays_removed es3 s2 s3 k Inv2); auto.
    assert (P : get k (procs s1) <> None).
    { pose proof (Inv1 _ _ G) as X.
      destruct (get k (procs s1)); [discriminate | contradiction]. }
    clear - P R2. revert s1 P R2.
    induction es2 as [|e es2 IH]; simpl; intros s1 P R2.
    + now injection R2 as <-.
    + destruct (enabled s1 e); [|discriminate].
      exact (IH _ (sys_step_procs s1 e k P) R2).
Qed.

Lemma status_moves_forward_between_callbacks_witness :
  forward Downloading Error
  /\ (Downloading = Completed -> Error = Completed)
  /\ (Downloading = Error -> Error = Error)
  /\ (Error = Downloading -> Downloading = Downloading)
  /\ (forall (u : uuid) (chunk : string),
        [Close job_a (Some 0%Z); Timeout job_a] = [StdoutData u chunk] ->
        Error = Downloading).
Proof.
  exact (status_moves_forward_between_callbacks
           (mkDir true [])
           [Submit job_a 7; StdoutData job_a "[download]  42.0% of 3.45MiB"]
           [Close job_a (Some 0%Z); Timeout job_a]
           (sys_step (sys_step (start (mkDir true [])) (Submit job_a 7))
                     (StdoutData job_a "[download]  42.0% of 3.45MiB"))
           (sys_step
              (sys_step
                 (sys_step (sys_step (start (mkDir true [])) (Submit job_a 7))
                           (StdoutData job_a "[download]  42.0% of 3.45MiB"))
                 (Close job_a (Some 0%Z)))
              (Timeout job_a))
           job_a
           (mkJob Downloading 42 None None 7)
           eq_refl eq_refl eq_refl).
Defined.

(** The order matters: [child_process] does not deliver a [close] with code
    0 after an [error], and were it to, the file-discovery timer would turn
    an error record into a completed one. *)
Example close_with_code_0_does_not_follow_error :
  let es := [Submit job_a 0; ProcessError job_a] in
  let es' := [Close job_a (Some 0%Z); Timeout job_a] in
  let d := mkDir true [(file_a, Regular)] in
  option_map status (get job_a (jobs (reached d es))) = Some Error
  /\ option_map status (get job_a (jobs (reached d (es ++ es')%list))) = Some Completed
  /\ sys_run (start d) (es ++ es')%list = None
  /\ option_map (fun s => option_map status (get job_a (jobs (world s))))
       (sys_run (start d) (es ++ [Close job_a None])%list) = Some (Some Error).
Proof. repeat split. Qed.
